(** * blitzhttp: routing and dispatch, embedded in Rocq

    A shallow embedding of the router of [blitzhttp] (route.go, router.go,
    group.go and the package's type declarations), together with the
    properties of its dispatch and registration functions.

    Conventions of the embedding.
    - Go strings are byte strings: Rocq's [string].
    - [map[string]*route] is a [gmap string route].  Every [*route] is
      allocated by [&route{}] inside [addRoute] or [addCatchAll] and stored
      under exactly one key of one partition, so updating the pointee is
      updating the map at that key.  The maps of a router are made by [New];
      nil maps are not modelled.
    - [[mAny + 1]*routeHandler] is a list of optional handlers ([None] is the
      nil pointer) of length [mAny + 1]; an index outside the array is a
      run-time panic in Go and is [None] in the [option] monad here.
    - An [http.Handler] acts on the response writer it is given: a function
      from the request and the writer's state to the writer's new state.
      A [Middleware] is a function from handlers to handlers.
    - The closure stored in [staticCode] captures the router pointer, not a
      copy of its tables: calling it reads [r.static] and [r.catchAll] as
      they are at the time of the call. *)

From Stdlib Require Import Ascii String.
From stdpp Require Import base option list strings gmap fin_maps.

(** ** The parts of Go's [strings] package the router uses *)

Module gostrings.

Fixpoint inCutset (c : ascii) (cutset : string) : bool :=
  match cutset with
  | EmptyString => false
  | String d rest => if Ascii.eqb c d then true else inCutset c rest
  end.

Fixpoint TrimLeft (s cutset : string) : string :=
  match s with
  | EmptyString => EmptyString
  | String c rest => if inCutset c cutset then TrimLeft rest cutset else s
  end.

Fixpoint TrimRight (s cutset : string) : string :=
  match s with
  | EmptyString => EmptyString
  | String c rest =>
      match TrimRight rest cutset with
      | EmptyString => if inCutset c cutset then EmptyString else String c EmptyString
      | t => String c t
      end
  end.

(** [strings.Trim(s, cutset)]: all leading and trailing bytes of [cutset]
    removed.  The router only calls it with the one-byte cutset ["/"]. *)
Definition Trim (s cutset : string) : string :=
  TrimRight (TrimLeft s cutset) cutset.

(** [strings.HasSuffix]:
    [len(s) >= len(suffix) && s[len(s)-len(suffix):] == suffix]. *)
Definition HasSuffix (s suffix : string) : bool :=
  (String.length suffix <=? String.length s)%nat
  && String.eqb (substring (String.length s - String.length suffix)
                           (String.length suffix) s) suffix.

(** [strings.TrimSuffix]: [s] without the given trailing suffix, once. *)
Definition TrimSuffix (s suffix : string) : string :=
  if HasSuffix s suffix
  then substring 0 (String.length s - String.length suffix) s
  else s.

(** [strings.Contains]: [substr] occurs somewhere in [s]. *)
Fixpoint Contains (s substr : string) : bool :=
  String.prefix substr s
  || match s with
     | EmptyString => false
     | String _ rest => Contains rest substr
     end.

End gostrings.

(** ** [context.Context], as far as values are concerned *)

Module context.

(** Keys are compared with [==].  [paramsKey] is the package's own key
    (the only value of the unexported type [paramsKeyType]); any other
    key belongs to some other package. *)
Inductive key :=
| paramsKey
| foreignKey (name : string).

(** A value of type [any]: the router stores strings; [GetParams] asserts
    the string type. *)
Inductive any :=
| anyString (s : string)
| anyOther (tag : nat).

Definition key_eqb (a b : key) : bool :=
  match a, b with
  | paramsKey, paramsKey => true
  | foreignKey x, foreignKey y => String.eqb x y
  | _, _ => false
  end.

(** A context is the chain of its [WithValue] ancestors, innermost first. *)
Definition Context := list (key * any).

Definition Background : Context := [].

Definition WithValue (parent : Context) (k : key) (v : any) : Context :=
  (k, v) :: parent.

Fixpoint Value (c : Context) (k : key) : option any :=
  match c with
  | [] => None
  | (k', v) :: parent => if key_eqb k' k then Some v else Value parent k
  end.

End context.

(** ** The parts of [net/http] the router uses *)

Module http.

Definition MethodGet := "GET".
Definition MethodPost := "POST".
Definition MethodPut := "PUT".
Definition MethodDelete := "DELETE".
Definition MethodPatch := "PATCH".
Definition MethodOptions := "OPTIONS".

Definition StatusOK : nat := 200.
Definition StatusNoContent : nat := 204.
Definition StatusNotFound : nat := 404.

Record Request := mkRequest {
  Method : string;
  URL_Path : string;
  ReqHeader : gmap string string;
  ctx : context.Context
}.

Definition Context (req : Request) : context.Context := ctx req.

(** [req.WithContext(ctx)]: a copy of the request with the context changed. *)
Definition WithContext (req : Request) (c : context.Context) : Request :=
  {| Method := Method req; URL_Path := URL_Path req;
     ReqHeader := ReqHeader req; ctx := c |}.

(** The state of a response writer, as a recorder keeps it: the header
    map, the status code once it was written, and the body so far. *)
Record ResponseWriter := mkResponseWriter {
  Header : gmap string string;
  Code : option nat;
  Body : string
}.

Definition NewRecorder : ResponseWriter :=
  {| Header := ∅; Code := None; Body := "" |}.

(** [w.Header().Set(k, v)] *)
Definition Header_Set (k v : string) (w : ResponseWriter) : ResponseWriter :=
  match w with
  | mkResponseWriter hd code body => mkResponseWriter (<[k := v]> hd) code body
  end.

(** [w.WriteHeader(code)]: only the first call sets the status. *)
Definition WriteHeader (code : nat) (w : ResponseWriter) : ResponseWriter :=
  match w with
  | mkResponseWriter hd (Some _) body => w
  | mkResponseWriter hd None body => mkResponseWriter hd (Some code) body
  end.

(** [w.Write(data)]: writes the status [StatusOK] first if none was written. *)
Definition Write (data : string) (w : ResponseWriter) : ResponseWriter :=
  match WriteHeader StatusOK w with
  | mkResponseWriter hd code body => mkResponseWriter hd code (body +:+ data)
  end.

(** [http.Handler]: [ServeHTTP(w, req)] acting on the writer's state. *)
Definition Handler := Request -> ResponseWriter -> ResponseWriter.

Definition newline : string := String (ascii_of_nat 10) EmptyString.

(** [http.Error(w, error, code)] *)
Definition Error (error : string) (code : nat) (w : ResponseWriter) : ResponseWriter :=
  let w := Header_Set "Content-Type" "text/plain; charset=utf-8" w in
  let w := Header_Set "X-Content-Type-Options" "nosniff" w in
  let w := WriteHeader code w in
  Write (error +:+ newline) w.

(** [http.NotFound(w, req)] *)
Definition NotFound : Handler :=
  fun _ w => Error "404 page not found" StatusNotFound w.

End http.

Import gostrings.
Import http.

(** ** Package blitzhttp: types *)

(** [type Middleware func(http.Handler) http.Handler] *)
Definition Middleware := Handler -> Handler.

Definition paramsKey : context.key := context.paramsKey.

(** [GetParams]: the string stored under [paramsKey], or the empty string. *)
Definition GetParams (r : Request) : string :=
  match context.Value (Context r) paramsKey with
  | Some (context.anyString params) => params
  | _ => ""
  end.

(** Method indices ([iota] constants). *)
Definition mGet : nat := 0.
Definition mPost : nat := 1.
Definition mPut : nat := 2.
Definition mDelete : nat := 3.
Definition mPatch : nat := 4.
Definition mAny : nat := 5.

Record routeHandler := mkRouteHandler {
  handler : Handler (* pre-composed with middlewares *)
}.

Record route := mkRoute {
  handlers : list (option routeHandler); (* [mAny + 1] slots *)
  isParam : bool;
  isWild : bool
}.

(** The body of the closure built by [compileStatic] is fixed; a value of
    this type stands for "the closure exists".  Its body is
    [staticCode_call] below, run on the router as it is when called. *)
Inductive staticFn := compiledStatic.

Record Router := mkRouter {
  static : gmap string route;
  params : gmap string route;
  wildcards : gmap string route;
  catchAll : option route;
  globalMWs : list Middleware;
  staticCode : option staticFn
}.

(** [&route{}]: every slot nil, both flags false. *)
Definition zero_route : route :=
  {| handlers := replicate (mAny + 1) None; isParam := false; isWild := false |}.

(** Reading slot [i] of the handler array: the pointer stored there. *)
Definition slot (rt : route) (i : nat) : option routeHandler :=
  default None (handlers rt !! i).

(** Writing slot [i] of a handler array; an index outside it panics. *)
Definition store (hs : list (option routeHandler)) (i : nat) (h : routeHandler)
  : option (list (option routeHandler)) :=
  if decide (i < length hs) then Some (<[i := Some h]> hs) else None.

(** ** route.go *)

Definition getHandler (rt : route) (method : string) : option routeHandler :=
  if String.eqb method MethodGet then slot rt mGet
  else if String.eqb method MethodPost then slot rt mPost
  else if String.eqb method MethodPut then slot rt mPut
  else if String.eqb method MethodDelete then slot rt mDelete
  else if String.eqb method MethodPatch then slot rt mPatch
  else None.

(** [composeHandler]: the loop runs from the last middleware to the first,
    each one wrapping the handler built so far. *)
Definition composeHandler (handler : Handler) (mws : list Middleware) : Handler :=
  fold_left (fun h mw => mw h) (rev mws) handler.

Definition set_staticCode (c : option staticFn) (r : Router) : Router :=
  {| static := static r; params := params r; wildcards := wildcards r;
     catchAll := catchAll r; globalMWs := globalMWs r; staticCode := c |}.

Definition compileStatic (r : Router) : Router :=
  if decide (size (static r) = 0)
  then set_staticCode None r
  else set_staticCode (Some compiledStatic) r.

(** The body of the closure of [compileStatic], on the router it captured. *)
Definition staticCode_call (f : staticFn) (r : Router) : Handler :=
  fun req w =>
    let path := Trim (URL_Path req) "/" in
    match static r !! path ≫= (fun rt => getHandler rt (Method req)) with
    | Some h => handler h req w
    | None =>
        (* Check catch-all for unmatched paths *)
        match catchAll r ≫= (fun rt => getHandler rt (Method req)) with
        | Some h =>
            let ctx := context.WithValue (Context req) paramsKey (context.anyString path) in
            handler h (WithContext req ctx) w
        | None => NotFound req w
        end
    end.

(** The three partitions [addRoute] chooses from. *)
Inductive partition := Static | Params | Wildcards.

#[global] Instance partition_eq_dec : EqDecision partition.
Proof. solve_decision. Defined.

Definition routes_of (p : partition) (r : Router) : gmap string route :=
  match p with
  | Static => static r
  | Params => params r
  | Wildcards => wildcards r
  end.

Definition set_routes (p : partition) (m : gmap string route) (r : Router) : Router :=
  match p with
  | Static =>
      {| static := m; params := params r; wildcards := wildcards r;
         catchAll := catchAll r; globalMWs := globalMWs r; staticCode := staticCode r |}
  | Params =>
      {| static := static r; params := m; wildcards := wildcards r;
         catchAll := catchAll r; globalMWs := globalMWs r; staticCode := staticCode r |}
  | Wildcards =>
      {| static := static r; params := params r; wildcards := m;
         catchAll := catchAll r; globalMWs := globalMWs r; staticCode := staticCode r |}
  end.

(** The partition and the key [addRoute] computes from the path it is given
    (the first lines of [addRoute], for use in statements). *)
Definition classify (path : string) : partition * string :=
  let path := Trim path "/" in
  let isWild := HasSuffix path "*" in
  let isParam := Contains path ":" in
  let path := if isWild then TrimSuffix path "*" else path in
  (if isWild then Wildcards else if isParam then Params else Static, path).

Definition addRoute (method : nat) (path : string) (handler : Handler)
    (mws : list Middleware) (r : Router) : option Router :=
  let path := Trim path "/" in
  let isWild := HasSuffix path "*" in
  let isParam := Contains path ":" in
  let path := if isWild then TrimSuffix path "*" else path in
  let part := if isWild then Wildcards else if isParam then Params else Static in
  let routes := routes_of part r in
  let routes :=
    match routes !! path with
    | Some _ => routes
    | None => <[path := zero_route]> routes
    end in
  rt ← routes !! path;
  let mws := globalMWs r ++ mws in
  hs ← store (handlers rt) method
         (mkRouteHandler (composeHandler handler mws));
  let rt := {| handlers := hs; isParam := isParam; isWild := isWild |} in
  Some (compileStatic (set_routes part (<[path := rt]> routes) r)).

(** [GET], [POST], [PUT], [DELETE], [PATCH] of the router. *)
Definition GET (path : string) (handler : Handler) (mws : list Middleware)
    (r : Router) : option Router :=
  addRoute mGet path handler mws r.
Definition POST (path : string) (handler : Handler) (mws : list Middleware)
    (r : Router) : option Router :=
  addRoute mPost path handler mws r.
Definition PUT (path : string) (handler : Handler) (mws : list Middleware)
    (r : Router) : option Router :=
  addRoute mPut path handler mws r.
Definition DELETE (path : string) (handler : Handler) (mws : list Middleware)
    (r : Router) : option Router :=
  addRoute mDelete path handler mws r.
Definition PATCH (path : string) (handler : Handler) (mws : list Middleware)
    (r : Router) : option Router :=
  addRoute mPatch path handler mws r.

Definition set_catchAll (c : option route) (r : Router) : Router :=
  {| static := static r; params := params r; wildcards := wildcards r;
     catchAll := c; globalMWs := globalMWs r; staticCode := staticCode r |}.

(** The indices [mGet], ..., [mPatch] of the loops
    [for i := mGet; i <= mPatch; i++]. *)
Definition method_range : list nat := seq mGet (mPatch + 1 - mGet).

Definition addCatchAll (handler : Handler) (mws : list Middleware) (r : Router)
  : option Router :=
  let ca := match catchAll r with
            | None => zero_route
            | Some rt => rt
            end in
  let mws := globalMWs r ++ mws in
  hs ← foldl (fun acc i =>
                hs ← acc;
                store hs i (mkRouteHandler (composeHandler handler mws)))
             (Some (handlers ca)) method_range;
  Some (set_catchAll
          (Some {| handlers := hs; isParam := isParam ca; isWild := isWild ca |}) r).

(** [ANY]: the catch-all for the path ["*"], else the route for every method. *)
Definition ANY (path : string) (handler : Handler) (mws : list Middleware)
    (r : Router) : option Router :=
  if String.eqb path "*" then addCatchAll handler mws r
  else foldl (fun acc i => r ← acc; addRoute i path handler mws r)
             (Some r) method_range.

(** ** router.go *)

Definition New : Router :=
  compileStatic
    {| static := ∅; params := ∅; wildcards := ∅;
       catchAll := None; globalMWs := []; staticCode := None |}.

Definition ServeHTTP (r : Router) : Handler :=
  fun req w =>
    if String.eqb (Method req) MethodOptions then
      let w := Header_Set "Allow" "GET,POST,PUT,DELETE,PATCH,OPTIONS" w in
      WriteHeader StatusNoContent w
    else
      let path := Trim (URL_Path req) "/" in
      match staticCode r with
      | Some code => staticCode_call code r req w
      | None =>
          (* Exact match *)
          match static r !! path ≫= (fun rt => getHandler rt (Method req)) with
          | Some h => handler h req w
          | None =>
              (* Catch-all match *)
              match catchAll r ≫= (fun rt => getHandler rt (Method req)) with
              | Some h =>
                  let ctx := context.WithValue (Context req) paramsKey
                                               (context.anyString path) in
                  handler h (WithContext req ctx) w
              | None => NotFound req w
              end
          end
      end.

(** One route after [recomposeHandlers]: every non-nil slot re-wrapped with
    the global middlewares. *)
Definition recomposeRoute (gmws : list Middleware) (rt : route) : route :=
  {| handlers :=
       (fun h : option routeHandler =>
          match h with
          | Some h => Some (mkRouteHandler (composeHandler (handler h) gmws))
          | None => None
          end) <$> handlers rt;
     isParam := isParam rt;
     isWild := isWild rt |}.

Definition recomposeHandlers (r : Router) : Router :=
  compileStatic
    {| static := recomposeRoute (globalMWs r) <$> static r;
       params := recomposeRoute (globalMWs r) <$> params r;
       wildcards := recomposeRoute (globalMWs r) <$> wildcards r;
       catchAll := recomposeRoute (globalMWs r) <$> catchAll r;
       globalMWs := globalMWs r;
       staticCode := staticCode r |}.

Definition Use (mws : list Middleware) (r : Router) : Router :=
  recomposeHandlers
    {| static := static r; params := params r; wildcards := wildcards r;
       catchAll := catchAll r; globalMWs := globalMWs r ++ mws;
       staticCode := staticCode r |}.

(** ** group.go *)

(** A group; its [router] field is the one router of the embedding, and
    [Group_mws] is what the slice [g.mws] holds when a method of the group
    is called. *)
Record Group := mkGroup {
  Group_prefix : string;
  Group_mws : list Middleware
}.

Definition Router_Group (prefix : string) (mws : list Middleware) : Group :=
  {| Group_prefix := Trim prefix "/"; Group_mws := mws |}.

Definition Group_addRoute (g : Group) (method : nat) (path : string)
    (handler : Handler) (mws : list Middleware) (r : Router) : option Router :=
  let mws := Group_mws g ++ mws in
  addRoute method (Group_prefix g +:+ "/" +:+ Trim path "/") handler mws r.

Definition Group_addCatchAll (g : Group) (handler : Handler)
    (mws : list Middleware) (r : Router) : option Router :=
  let mws := Group_mws g ++ mws in
  addCatchAll handler mws r.

Definition Group_GET (g : Group) (path : string) (handler : Handler)
    (mws : list Middleware) (r : Router) : option Router :=
  Group_addRoute g mGet path handler mws r.
Definition Group_POST (g : Group) (path : string) (handler : Handler)
    (mws : list Middleware) (r : Router) : option Router :=
  Group_addRoute g mPost path handler mws r.
Definition Group_PUT (g : Group) (path : string) (handler : Handler)
    (mws : list Middleware) (r : Router) : option Router :=
  Group_addRoute g mPut path handler mws r.
Definition Group_DELETE (g : Group) (path : string) (handler : Handler)
    (mws : list Middleware) (r : Router) : option Router :=
  Group_addRoute g mDelete path handler mws r.
Definition Group_PATCH (g : Group) (path : string) (handler : Handler)
    (mws : list Middleware) (r : Router) : option Router :=
  Group_addRoute g mPatch path handler mws r.

Definition Group_ANY (g : Group) (path : string) (handler : Handler)
    (mws : list Middleware) (r : Router) : option Router :=
  if String.eqb path "*" then Group_addCatchAll g handler mws r
  else foldl (fun acc i => r ← acc; Group_addRoute g i path handler mws r)
             (Some r) method_range.

Definition Group_Group (g : Group) (prefix : string) (mws : list Middleware) : Group :=
  {| Group_prefix := Group_prefix g +:+ "/" +:+ Trim prefix "/";
     Group_mws := Group_mws g ++ mws |}.

(** ** Calls of the exported API and the router states they reach *)

Inductive verb := vGET | vPOST | vPUT | vDELETE | vPATCH | vANY.

Definition Router_register (v : verb)
  : string -> Handler -> list Middleware -> Router -> option Router :=
  match v with
  | vGET => GET | vPOST => POST | vPUT => PUT
  | vDELETE => DELETE | vPATCH => PATCH | vANY => ANY
  end.

Definition Group_register (g : Group) (v : verb)
  : string -> Handler -> list Middleware -> Router -> option Router :=
  match v with
  | vGET => Group_GET g | vPOST => Group_POST g | vPUT => Group_PUT g
  | vDELETE => Group_DELETE g | vPATCH => Group_PATCH g | vANY => Group_ANY g
  end.

(** One call on the router or on one of its groups.  [ANY] with the path
    ["*"] is the catch-all registration. *)
Inductive call :=
| RouterCall (v : verb) (path : string) (handler : Handler) (mws : list Middleware)
| GroupCall (g : Group) (v : verb) (path : string) (handler : Handler)
            (mws : list Middleware)
| UseCall (mws : list Middleware).

Definition apply_call (c : call) (r : Router) : option Router :=
  match c with
  | RouterCall v path handler mws => Router_register v path handler mws r
  | GroupCall g v path handler mws => Group_register g v path handler mws r
  | UseCall mws => Some (Use mws r)
  end.

Fixpoint run (cs : list call) (r : Router) : option Router :=
  match cs with
  | [] => Some r
  | c :: cs => r ← apply_call c r; run cs r
  end.

Inductive reachable : Router -> Prop :=
| reachable_New : reachable New
| reachable_call (c : call) (r r' : Router) :
    reachable r -> apply_call c r = Some r' -> reachable r'.

(** The partition a call registers into; [None] for [Use] and for the
    catch-all registration. *)
Definition call_partition (c : call) : option partition :=
  match c with
  | RouterCall v path _ _ =>
      match v with
      | vANY => if String.eqb path "*" then None else Some (classify path).1
      | _ => Some (classify path).1
      end
  | GroupCall g v path _ _ =>
      let full := Group_prefix g +:+ "/" +:+ Trim path "/" in
      match v with
      | vANY => if String.eqb path "*" then None else Some (classify full).1
      | _ => Some (classify full).1
      end
  | UseCall _ => None
  end.

(** Registrations of parameterized and wildcard routes. *)
Definition registers_pattern (c : call) : bool :=
  match call_partition c with
  | Some Params | Some Wildcards => true
  | _ => false
  end.

Definition without_patterns (cs : list call) : list call :=
  List.filter (fun c => negb (registers_pattern c)) cs.

(** ** Vocabulary of the statements *)

Definition std_methods : list string :=
  [MethodGet; MethodPost; MethodPut; MethodDelete; MethodPatch].

(** The handler the static partition holds for a normalized path and a
    method, and the one the catch-all route holds for a method. *)
Definition static_match (r : Router) (path method : string) : option routeHandler :=
  static r !! path ≫= (fun rt => getHandler rt method).

Definition catchAll_match (r : Router) (method : string) : option routeHandler :=
  catchAll r ≫= (fun rt => getHandler rt method).

(** The request a catch-all handler receives: the normalized path attached
    to the context under [paramsKey]. *)
Definition with_params (req : Request) (path : string) : Request :=
  WithContext req
    (context.WithValue (Context req) paramsKey (context.anyString path)).

(** The normalized path of a request. *)
Definition normalized (req : Request) : string := Trim (URL_Path req) "/".

(** The handler array has its [mAny + 1] slots. *)
Definition route_wf (rt : route) : Prop := length (handlers rt) = mAny + 1.

(** The flags [addRoute] writes are determined by the partition and the key. *)
Definition flags_ok (p : partition) (k : string) (rt : route) : Prop :=
  isWild rt = match p with Wildcards => true | _ => false end
  ∧ isParam rt = match p with
                 | Static => false
                 | Params => true
                 | Wildcards => Contains k ":"
                 end.

(** What holds of every router the API builds. *)
Record Router_inv (r : Router) : Prop := {
  inv_wf : ∀ p k rt, routes_of p r !! k = Some rt → route_wf rt;
  inv_flags : ∀ p k rt, routes_of p r !! k = Some rt → flags_ok p k rt;
  inv_catchAll_wf : ∀ ca, catchAll r = Some ca → route_wf ca;
  inv_catchAll_full :
    ∀ ca i, catchAll r = Some ca → i ∈ method_range → is_Some (slot ca i);
  inv_compiled : is_Some (staticCode r) ↔ static r ≠ ∅
}.

(** Two routers with the same static partition, catch-all route and global
    middlewares: they may differ in the parameterized and wildcard
    partitions. *)
Definition same_live_tables (r1 r2 : Router) : Prop :=
  static r1 = static r2
  ∧ catchAll r1 = catchAll r2
  ∧ globalMWs r1 = globalMWs r2.

(** ** Handlers and middlewares used as concrete inputs *)

(** A middleware that writes its tag and calls through, and a terminal
    handler that writes a text followed by the matched parameter. *)
Definition mark (tag : string) : Middleware :=
  fun next req w => next req (Write tag w).

Definition reply (text : string) : Handler :=
  fun req w => Write (text +:+ GetParams req) w.

Definition request (method path : string) : Request :=
  {| Method := method; URL_Path := path; ReqHeader := ∅;
     ctx := context.Background |}.

(** The router of the package's usage example, with a parameterized and a
    wildcard route added, and the same router before its catch-all. *)
Definition api_calls : list call :=
  [ UseCall [mark "A"];
    RouterCall vGET "/api" (reply "Welcome") [mark "C"];
    RouterCall vGET "/users/:id" (reply "User: ") [];
    RouterCall vGET "/files/*" (reply "File: ") [] ].

Definition api_router : Router := default New (run api_calls New).

Definition demo_calls : list call :=
  api_calls ++ [ RouterCall vANY "*" (reply "Not found: ") [] ].

Definition demo_router : Router := default New (run demo_calls New).

(** A router with a catch-all, a parameterized and a wildcard route, and no
    static route. *)
Definition pattern_calls : list call :=
  [ RouterCall vGET "/users/:id" (reply "User: ") [];
    RouterCall vANY "*" (reply "Caught: ") [];
    GroupCall (Router_Group "/files" []) vGET "/*" (reply "File: ") [] ].

Definition pattern_router : Router := default New (run pattern_calls New).

(** A router with two methods on one path. *)
Definition two_method_calls : list call :=
  [ RouterCall vGET "/api" (reply "get-1") [];
    RouterCall vPOST "/api" (reply "post-1") [] ].

Definition two_method_router : Router := default New (run two_method_calls New).

(** A group below two prefixes, with two inherited middlewares. *)
Definition admin_group : Group :=
  Group_Group (Router_Group "/api/v1" [mark "L"]) "/admin" [mark "U"].

(** A global middleware, then a route with a middleware of its own, then a
    second global middleware. *)
Definition use_twice_calls : list call :=
  [ UseCall [mark "A"];
    RouterCall vGET "/x" (reply "h") [mark "C"];
    UseCall [mark "B"] ].

(** Both global middlewares before the route. *)
Definition use_first_calls : list call :=
  [ UseCall [mark "A"];
    UseCall [mark "B"];
    RouterCall vGET "/x" (reply "h") [mark "C"; mark "D"] ].

(** ** router.go: [matchParam], and the parts of [strings] it uses *)

(** [strings.Split(s, sep)] for a separator of one byte: the pieces of [s]
    between the occurrences of [sep]; one empty piece for the empty string.
    [matchParam] calls it with the separator "/" only. *)
Fixpoint Split (s : string) (sep : ascii) : list string :=
  match s with
  | EmptyString => [EmptyString]
  | String c rest =>
      if Ascii.eqb c sep then EmptyString :: Split rest sep
      else match Split rest sep with
           | [] => [String c EmptyString]
           | piece :: pieces => String c piece :: pieces
           end
  end.

(** [strings.Join(elems, sep)] *)
Fixpoint Join (elems : list string) (sep : string) : string :=
  match elems with
  | [] => EmptyString
  | [piece] => piece
  | piece :: rest => piece +:+ sep +:+ Join rest sep
  end.

(** The loop of [matchParam] over the parts of the pattern: [Some true]
    when it runs to its end, [Some false] when it returns the empty string,
    [None] when [p[0]] is read from an empty part [p] (an index out of range,
    a panic).  [rParts[i]] is inside the slice: the lengths were compared. *)
Fixpoint matchParts (pParts rParts : list string) : option bool :=
  match pParts, rParts with
  | [], _ => Some true
  | _ :: _, [] => None
  | p :: pParts, r :: rParts =>
      if String.eqb p r then matchParts pParts rParts
      else match p with
           | EmptyString => None
           | String c _ =>
               if Ascii.eqb c ":" then matchParts pParts rParts else Some false
           end
  end.

Definition matchParam (path pattern : string) : option string :=
  if (String.length path <? String.length pattern)%nat then Some ""
  else if String.eqb pattern path then Some ""
  else
    let pParts := Split pattern "/" in
    let rParts := Split path "/" in
    if negb (length pParts =? length rParts)%nat then Some ""
    else match matchParts pParts rParts with
         | Some true => Some (Join rParts "/")
         | Some false => Some ""
         | None => None
         end.

(** ** The bundled middleware [Auth] *)

Definition StatusUnauthorized : nat := 401.

(** [h.Get(key)] on the header of a request: the value, or the empty string
    when the key is absent. *)
Definition Header_Get (key : string) (h : gmap string string) : string :=
  default "" (h !! key).

(** [Auth]: rejects requests without an Authorization header; the wrapped
    handler is not called for them. *)
Definition Auth : Middleware :=
  fun next req w =>
    if String.eqb (Header_Get "Authorization" (ReqHeader req)) ""
    then Error "Unauthorized" StatusUnauthorized w
    else next req w.

(** ** Further vocabulary *)

(** The method that [getHandler] maps to the slot of an index. *)
Definition method_name (i : nat) : string := default "" (std_methods !! i).

(** The global middlewares a call adds, and those a history of calls adds. *)
Definition call_use (c : call) : list Middleware :=
  match c with
  | UseCall mws => mws
  | _ => []
  end.

Definition use_args (cs : list call) : list Middleware :=
  concat (call_use <$> cs).

(** A part of a pattern that [matchParam] lets stand for any part of a path. *)
Definition is_param_part (p : string) : bool :=
  match p with
  | String c _ => Ascii.eqb c ":"
  | EmptyString => false
  end.

(** The key under which a route of a group with the given prefix is stored:
    prefix and path trimmed and joined by one separator, which disappears
    when either side is empty. *)
Definition joined_key (prefix path : string) : string :=
  let p := Trim prefix "/" in
  let q := Trim path "/" in
  if String.eqb p "" then q
  else if String.eqb q "" then p
  else p +:+ "/" +:+ q.

(** A request with an Authorization header. *)
Definition authorized_request (method path token : string) : Request :=
  {| Method := method; URL_Path := path;
     ReqHeader := {[ "Authorization" := token ]};
     ctx := context.Background |}.

(** * Properties *)

(** ** Strings *)

Lemma append_cons (c : ascii) (a b : string) :
  String c a +:+ b = String c (a +:+ b).
Proof. reflexivity. Qed.

Lemma substring_all (s : string) : substring 0 (String.length s) s = s.
Proof. induction s; simpl; by f_equal. Qed.

Lemma substring_split (s : string) (n : nat) :
  n ≤ String.length s →
  s = substring 0 n s +:+ substring n (String.length s - n) s.
Proof.
  revert n. induction s as [|c s IH]; intros n Hn; destruct n as [|n]; simpl in *.
  - done.
  - lia.
  - by rewrite substring_all.
  - rewrite append_cons. f_equal. apply IH. lia.
Qed.

Lemma Contains_cons (c : ascii) (s substr : string) :
  Contains (String c s) substr
  = String.prefix substr (String c s) || Contains s substr.
Proof. reflexivity. Qed.

Lemma prefix_byte (d c : ascii) (s t : string) :
  String.prefix (String d "") (String c s)
  = String.prefix (String d "") (String c t).
Proof.
  cbn [String.prefix]. destruct (ascii_dec d c); [|done]. by destruct s, t.
Qed.

Lemma Contains_app_star (a : string) :
  Contains (a +:+ "*") ":" = Contains a ":".
Proof.
  induction a as [|c a IH]; [done|].
  rewrite append_cons, !Contains_cons, IH.
  by rewrite (prefix_byte _ _ (a +:+ "*") a).
Qed.

Lemma HasSuffix_star (s : string) :
  HasSuffix s "*" = true → s = TrimSuffix s "*" +:+ "*".
Proof.
  intros H. unfold TrimSuffix. rewrite H.
  unfold HasSuffix in H. apply andb_prop in H as [Hlen Heq].
  apply Nat.leb_le in Hlen. apply String.eqb_eq in Heq. simpl in *.
  pose proof (substring_split s (String.length s - 1)) as Hs.
  replace (String.length s - (String.length s - 1)) with 1 in Hs by lia.
  rewrite Heq in Hs. apply Hs. lia.
Qed.

Lemma Contains_TrimSuffix_star (s : string) :
  HasSuffix s "*" = true → Contains s ":" = Contains (TrimSuffix s "*") ":".
Proof.
  intros H. rewrite (HasSuffix_star s H) at 1. apply Contains_app_star.
Qed.

(** The flags [addRoute] computes agree with the partition and key it
    chooses. *)
Lemma classify_flags (path : string) (rt : route) :
  isWild rt = HasSuffix (Trim path "/") "*" →
  isParam rt = Contains (Trim path "/") ":" →
  flags_ok (classify path).1 (classify path).2 rt.
Proof.
  intros Hw Hp. unfold flags_ok, classify. cbn [fst snd].
  rewrite Hw, Hp.
  destruct (HasSuffix (Trim path "/") "*") eqn:Hs.
  - split; [done|]. by apply Contains_TrimSuffix_star.
  - by destruct (Contains (Trim path "/") ":").
Qed.

(** ** Composition of middlewares *)

Lemma composeHandler_foldr (h : Handler) (mws : list Middleware) :
  composeHandler h mws = foldr (fun mw h => mw h) h mws.
Proof.
  unfold composeHandler.
  rewrite <- (rev_involutive mws) at 2.
  by rewrite fold_left_rev_right.
Qed.

Lemma composeHandler_nil (h : Handler) : composeHandler h [] = h.
Proof. reflexivity. Qed.

Lemma composeHandler_cons (h : Handler) (mw : Middleware) (mws : list Middleware) :
  composeHandler h (mw :: mws) = mw (composeHandler h mws).
Proof. by rewrite !composeHandler_foldr. Qed.

Lemma composeHandler_app (h : Handler) (outer inner : list Middleware) :
  composeHandler h (outer ++ inner)
  = composeHandler (composeHandler h inner) outer.
Proof. rewrite !composeHandler_foldr. apply foldr_app. Qed.

(** ** Method lookup *)

Lemma getHandler_std (rt : route) (method : string) (h : routeHandler) :
  getHandler rt method = Some h → method ∈ std_methods.
Proof.
  unfold getHandler, std_methods.
  destruct (String.eqb_spec method MethodGet) as [->|_]; [set_solver|].
  destruct (String.eqb_spec method MethodPost) as [->|_]; [set_solver|].
  destruct (String.eqb_spec method MethodPut) as [->|_]; [set_solver|].
  destruct (String.eqb_spec method MethodDelete) as [->|_]; [set_solver|].
  destruct (String.eqb_spec method MethodPatch) as [->|_]; [set_solver|].
  done.
Qed.

Lemma getHandler_other (rt : route) (method : string) :
  method ∉ std_methods → getHandler rt method = None.
Proof.
  intros Hm. destruct (getHandler rt method) eqn:E; [|done].
  by apply getHandler_std in E.
Qed.

Lemma getHandler_Options (rt : route) : getHandler rt MethodOptions = None.
Proof. reflexivity. Qed.

(** The index of the slot [getHandler] reads for each of the five methods. *)
Lemma getHandler_slot (rt : route) (method : string) :
  method ∈ std_methods →
  ∃ i, i ∈ method_range ∧ getHandler rt method = slot rt i.
Proof.
  unfold std_methods, method_range. rewrite !elem_of_cons, elem_of_nil.
  intros [->|[->|[->|[->|[->|[]]]]]];
    [exists mGet|exists mPost|exists mPut|exists mDelete|exists mPatch];
    (split; [cbn; set_solver|reflexivity]).
Qed.

(** ** Dispatch *)

(** [ServeHTTP] takes the same decisions with and without the compiled
    closure: the automatic reply to OPTIONS, then the static partition,
    then the catch-all route, then not-found. *)
Lemma ServeHTTP_dispatch (r : Router) (req : Request) (w : ResponseWriter) :
  ServeHTTP r req w =
    if String.eqb (Method req) MethodOptions
    then WriteHeader StatusNoContent
           (Header_Set "Allow" "GET,POST,PUT,DELETE,PATCH,OPTIONS" w)
    else match static_match r (normalized req) (Method req) with
         | Some h => handler h req w
         | None =>
             match catchAll_match r (Method req) with
             | Some h => handler h (with_params req (normalized req)) w
             | None => NotFound req w
             end
         end.
Proof.
  unfold ServeHTTP, staticCode_call, static_match, catchAll_match,
    with_params, normalized.
  by destruct (staticCode r).
Qed.

Lemma GetParams_with_params (req : Request) (path : string) :
  GetParams (with_params req path) = path.
Proof. reflexivity. Qed.

(** ** Registration *)

Lemma store_Some (hs : list (option routeHandler)) (i : nat) (h : routeHandler) :
  i < length hs → store hs i h = Some (<[i := Some h]> hs).
Proof. intros Hi. unfold store. by rewrite decide_True. Qed.

Lemma store_inv (hs hs' : list (option routeHandler)) (i : nat) (h : routeHandler) :
  store hs i h = Some hs' → i < length hs ∧ hs' = <[i := Some h]> hs.
Proof. unfold store. case_decide; naive_solver. Qed.

Lemma slot_insert (rt : route) (hs : list (option routeHandler)) (i j : nat)
    (h : routeHandler) (p w : bool) :
  i < length hs →
  slot {| handlers := <[i := Some h]> hs; isParam := p; isWild := w |} j
  = if decide (i = j) then Some h
    else slot {| handlers := hs; isParam := p; isWild := w |} j.
Proof.
  intros Hi. unfold slot. cbn [handlers]. case_decide as E.
  - subst j. by rewrite list_lookup_insert_eq.
  - by rewrite list_lookup_insert_ne.
Qed.

Lemma routes_of_set_routes (p q : partition) (m : gmap string route) (r : Router) :
  routes_of p (set_routes q m r) = if decide (p = q) then m else routes_of p r.
Proof. by destruct p, q. Qed.

Lemma routes_of_compileStatic (p : partition) (r : Router) :
  routes_of p (compileStatic r) = routes_of p r.
Proof. unfold compileStatic. case_decide; by destruct p. Qed.

Lemma catchAll_compileStatic (r : Router) :
  catchAll (compileStatic r) = catchAll r.
Proof. unfold compileStatic. by case_decide. Qed.

Lemma globalMWs_compileStatic (r : Router) :
  globalMWs (compileStatic r) = globalMWs r.
Proof. unfold compileStatic. by case_decide. Qed.

(** [compileStatic] leaves a closure exactly when the static partition has
    a route. *)
Lemma compileStatic_compiled (r : Router) :
  is_Some (staticCode (compileStatic r)) ↔ static (compileStatic r) ≠ ∅.
Proof.
  unfold compileStatic. case_decide as E; cbn.
  - apply map_size_empty_iff in E. rewrite E. split; [by intros []|done].
  - split; [|by eauto]. intros _ E'. apply E. by rewrite E'.
Qed.

Lemma classify_eq (path : string) (part : partition) (key : string) :
  classify path = (part, key) →
  part = (if HasSuffix (Trim path "/") "*" then Wildcards
          else if Contains (Trim path "/") ":" then Params else Static)
  ∧ key = (if HasSuffix (Trim path "/") "*"
           then TrimSuffix (Trim path "/") "*" else Trim path "/").
Proof. unfold classify. by intros [= <- <-]. Qed.

(** The route [addRoute] leaves under the key of the path. *)
Lemma addRoute_Some (method : nat) (path : string) (handler : Handler)
    (mws : list Middleware) (r : Router) (part : partition) (key : string) :
  classify path = (part, key) →
  method < length (handlers (default zero_route (routes_of part r !! key))) →
  addRoute method path handler mws r
  = Some (compileStatic
            (set_routes part
               (<[key := {| handlers :=
                              <[method := Some (mkRouteHandler
                                  (composeHandler handler (globalMWs r ++ mws)))]>
                                (handlers (default zero_route
                                             (routes_of part r !! key)));
                            isParam := Contains (Trim path "/") ":";
                            isWild := HasSuffix (Trim path "/") "*" |}]>
                  (routes_of part r)) r)).
Proof.
  intros Hc Hm. unfold addRoute.
  destruct (classify_eq path part key Hc) as [<- <-]. clear Hc.
  destruct (routes_of part r !! key) as [rt|] eqn:E; cbn in Hm |- *.
  - rewrite E. cbn. by rewrite store_Some.
  - rewrite lookup_insert_eq. cbn. rewrite store_Some by done. cbn.
    by rewrite insert_insert_eq.
Qed.

(** [addRoute] returns only when the index is inside the handler array. *)
Lemma addRoute_inv_Some (method : nat) (path : string) (handler : Handler)
    (mws : list Middleware) (r r' : Router) (part : partition) (key : string) :
  classify path = (part, key) →
  addRoute method path handler mws r = Some r' →
  method < length (handlers (default zero_route (routes_of part r !! key))).
Proof.
  intros Hc. unfold addRoute.
  destruct (classify_eq path part key Hc) as [<- <-]. clear Hc.
  destruct (routes_of part r !! key) as [rt|] eqn:E; cbn.
  - rewrite E. cbn. intros H. apply bind_Some in H as (hs & H & _).
    by apply store_inv in H as [? _].
  - rewrite lookup_insert_eq. cbn. intros H. apply bind_Some in H as (hs & H & _).
    by apply store_inv in H as [? _].
Qed.

Lemma catchAll_set_routes (p : partition) (m : gmap string route) (r : Router) :
  catchAll (set_routes p m r) = catchAll r.
Proof. by destruct p. Qed.

Lemma globalMWs_set_routes (p : partition) (m : gmap string route) (r : Router) :
  globalMWs (set_routes p m r) = globalMWs r.
Proof. by destruct p. Qed.

Lemma method_range_lt (i : nat) : i ∈ method_range ↔ i < mAny.
Proof. unfold method_range, mAny, mGet, mPatch. rewrite elem_of_seq. lia. Qed.

(** ** The invariant of the routers the API builds *)

Lemma Router_inv_New : Router_inv New.
Proof.
  unfold New. split.
  - intros p k rt. rewrite routes_of_compileStatic.
    destruct p; cbn; by rewrite lookup_empty.
  - intros p k rt. rewrite routes_of_compileStatic.
    destruct p; cbn; by rewrite lookup_empty.
  - intros ca. by rewrite catchAll_compileStatic.
  - intros ca i. by rewrite catchAll_compileStatic.
  - apply compileStatic_compiled.
Qed.

Lemma Router_inv_route_wf (r : Router) (p : partition) (k : string) :
  Router_inv r → route_wf (default zero_route (routes_of p r !! k)).
Proof.
  intros Hinv. destruct (routes_of p r !! k) as [rt|] eqn:E; cbn; [|done].
  by eapply inv_wf.
Qed.

Lemma addRoute_Router_inv (method : nat) (path : string) (handler : Handler)
    (mws : list Middleware) (r : Router) :
  Router_inv r → method ≤ mAny →
  ∃ r', addRoute method path handler mws r = Some r' ∧ Router_inv r'.
Proof.
  intros Hinv Hm. destruct (classify path) as [part key] eqn:Ec.
  pose proof (Router_inv_route_wf r part key Hinv) as Hwf.
  unfold route_wf in Hwf.
  rewrite (addRoute_Some _ _ _ _ _ part key Ec) by (rewrite Hwf; lia).
  eexists; split; [done|]. split.
  - intros p k rt. rewrite routes_of_compileStatic, routes_of_set_routes.
    case_decide as Ep; [|by eapply inv_wf].
    rewrite lookup_insert. case_decide; [|by eapply inv_wf].
    intros [= <-]. unfold route_wf. cbn [handlers]. by rewrite length_insert.
  - intros p k rt. rewrite routes_of_compileStatic, routes_of_set_routes.
    case_decide as Ep; [subst p|by eapply inv_flags].
    rewrite lookup_insert. case_decide as Ek; [subst k|by eapply inv_flags].
    intros [= <-].
    change part with (part, key).1. change key with (part, key).2 at 2.
    rewrite <- Ec. by apply classify_flags.
  - intros ca. rewrite catchAll_compileStatic, catchAll_set_routes.
    by eapply inv_catchAll_wf.
  - intros ca i. rewrite catchAll_compileStatic, catchAll_set_routes.
    by eapply inv_catchAll_full.
  - apply compileStatic_compiled.
Qed.

(** [Use]: every partition and the catch-all route are re-wrapped with the
    whole list of global middlewares, the new ones included. *)
Lemma routes_of_Use (p : partition) (mws : list Middleware) (r : Router) :
  routes_of p (Use mws r)
  = recomposeRoute (globalMWs r ++ mws) <$> routes_of p r.
Proof.
  unfold Use, recomposeHandlers. rewrite routes_of_compileStatic. by destruct p.
Qed.

Lemma catchAll_Use (mws : list Middleware) (r : Router) :
  catchAll (Use mws r) = recomposeRoute (globalMWs r ++ mws) <$> catchAll r.
Proof. unfold Use, recomposeHandlers. by rewrite catchAll_compileStatic. Qed.

Lemma globalMWs_Use (mws : list Middleware) (r : Router) :
  globalMWs (Use mws r) = globalMWs r ++ mws.
Proof. unfold Use, recomposeHandlers. by rewrite globalMWs_compileStatic. Qed.

Lemma slot_recomposeRoute (gmws : list Middleware) (rt : route) (i : nat) :
  slot (recomposeRoute gmws rt) i
  = (fun h => mkRouteHandler (composeHandler (handler h) gmws)) <$> slot rt i.
Proof.
  unfold slot, recomposeRoute. cbn [handlers]. rewrite list_lookup_fmap.
  by destruct (handlers rt !! i) as [[h|]|].
Qed.

Lemma getHandler_recomposeRoute (gmws : list Middleware) (rt : route) (method : string) :
  getHandler (recomposeRoute gmws rt) method
  = (fun h => mkRouteHandler (composeHandler (handler h) gmws))
      <$> getHandler rt method.
Proof.
  unfold getHandler. rewrite !slot_recomposeRoute.
  repeat (case_match; [done|]). done.
Qed.

Lemma Use_Router_inv (mws : list Middleware) (r : Router) :
  Router_inv r → Router_inv (Use mws r).
Proof.
  intros Hinv. split.
  - intros p k rt. rewrite routes_of_Use, lookup_fmap.
    destruct (routes_of p r !! k) as [rt0|] eqn:E; [|done].
    intros [= <-]. unfold route_wf, recomposeRoute. cbn [handlers].
    rewrite length_fmap. by eapply inv_wf.
  - intros p k rt. rewrite routes_of_Use, lookup_fmap.
    destruct (routes_of p r !! k) as [rt0|] eqn:E; [|done].
    intros [= <-]. by eapply (inv_flags r Hinv p k rt0).
  - intros ca. rewrite catchAll_Use.
    destruct (catchAll r) as [ca0|] eqn:E; [|done].
    intros [= <-]. unfold route_wf, recomposeRoute. cbn [handlers].
    rewrite length_fmap. by eapply inv_catchAll_wf.
  - intros ca i. rewrite catchAll_Use.
    destruct (catchAll r) as [ca0|] eqn:E; [|done].
    intros [= <-] Hi. rewrite slot_recomposeRoute.
    destruct (inv_catchAll_full r Hinv ca0 i E Hi) as [h ->]. by eexists.
  - apply compileStatic_compiled.
Qed.

(** The catch-all route [addCatchAll] leaves: the five method slots hold
    the composed handler, the reserved slot and the flags are those of the
    route that was there (of a fresh route if there was none). *)
Lemma addCatchAll_Some (handler : Handler) (mws : list Middleware) (r : Router) :
  let ca := default zero_route (catchAll r) in
  let h := mkRouteHandler (composeHandler handler (globalMWs r ++ mws)) in
  route_wf ca →
  addCatchAll handler mws r
  = Some (set_catchAll
            (Some {| handlers := [Some h; Some h; Some h; Some h; Some h;
                                  slot ca mAny];
                     isParam := isParam ca; isWild := isWild ca |}) r).
Proof.
  intros ca h Hwf. unfold addCatchAll.
  change (match catchAll r with Some rt => rt | None => zero_route end) with ca.
  clearbody ca. unfold route_wf in Hwf. unfold slot.
  destruct ca as [hs p w]. cbn [handlers isParam isWild] in *.
  do 6 (destruct hs as [|? hs]; [discriminate Hwf|]).
  destruct hs; [|discriminate Hwf].
  reflexivity.
Qed.

Lemma addCatchAll_Router_inv (handler : Handler) (mws : list Middleware) (r : Router) :
  Router_inv r →
  ∃ r', addCatchAll handler mws r = Some r' ∧ Router_inv r'.
Proof.
  intros Hinv.
  assert (Hwf : route_wf (default zero_route (catchAll r))).
  { destruct (catchAll r) as [ca|] eqn:E; cbn; [|done]. by eapply inv_catchAll_wf. }
  rewrite addCatchAll_Some by done.
  eexists; split; [done|]. split; cbn [catchAll set_catchAll].
  - intros p k rt Hrt. apply (inv_wf r Hinv p k rt). by destruct p.
  - intros p k rt Hrt. apply (inv_flags r Hinv p k rt). by destruct p.
  - by intros ca [= <-].
  - intros ca i [= <-] Hi. apply method_range_lt in Hi. unfold mAny in Hi.
    unfold slot. cbn [handlers].
    do 5 (destruct i as [|i]; [by eexists|]). lia.
  - apply (inv_compiled r Hinv).
Qed.

(** Loops over the method indices, in the [option] monad. *)
Lemma foldl_bind_None {A S : Type} (f : A → S → option S) (l : list A) :
  foldl (fun acc a => s ← acc; f a s) None l = None.
Proof. by induction l. Qed.

Lemma foldl_bind_total {A S : Type} (f : A → S → option S) (P : S → Prop)
    (l : list A) :
  (∀ a s, a ∈ l → P s → ∃ s', f a s = Some s' ∧ P s') →
  ∀ s, P s → ∃ s', foldl (fun acc a => s ← acc; f a s) (Some s) l = Some s' ∧ P s'.
Proof.
  induction l as [|a l IH]; intros Hf s Hs; [by eexists|].
  destruct (Hf a s) as (s1 & E & Hs1); [by left|done|].
  cbn. rewrite E. apply IH; [|done].
  intros a' s' Ha'. apply Hf. by right.
Qed.

Lemma foldl_bind_preserve {A S : Type} (f : A → S → option S) (P : S → Prop)
    (l : list A) :
  (∀ a s s', P s → f a s = Some s' → P s') →
  ∀ s s', P s → foldl (fun acc a => s ← acc; f a s) (Some s) l = Some s' → P s'.
Proof.
  intros Hf. induction l as [|a l IH]; intros s s' Hs; cbn.
  - by intros [= <-].
  - destruct (f a s) as [s1|] eqn:E; [|by rewrite foldl_bind_None].
    apply IH. by eapply Hf.
Qed.

Lemma foldl_bind_sim {A S : Type} (f : A → S → option S) (R : S → S → Prop)
    (l : list A) :
  (∀ a s1 s2 s1', R s1 s2 → f a s1 = Some s1' →
                  ∃ s2', f a s2 = Some s2' ∧ R s1' s2') →
  ∀ s1 s2 s1', R s1 s2 →
    foldl (fun acc a => s ← acc; f a s) (Some s1) l = Some s1' →
    ∃ s2', foldl (fun acc a => s ← acc; f a s) (Some s2) l = Some s2' ∧ R s1' s2'.
Proof.
  intros Hf. induction l as [|a l IH]; intros s1 s2 s1' HR; cbn.
  - intros [= <-]. by eexists.
  - destruct (f a s1) as [t1|] eqn:E; [|by rewrite foldl_bind_None].
    destruct (Hf a s1 s2 t1 HR E) as (t2 & E2 & HR2).
    rewrite E2. by apply IH.
Qed.

Lemma ANY_Router_inv (path : string) (handler : Handler) (mws : list Middleware)
    (r : Router) :
  Router_inv r → ∃ r', ANY path handler mws r = Some r' ∧ Router_inv r'.
Proof.
  intros Hinv. unfold ANY. case_match.
  - by apply addCatchAll_Router_inv.
  - apply (foldl_bind_total (fun i r => addRoute i path handler mws r) Router_inv);
      [|done].
    intros i r0 Hi Hr0. apply addRoute_Router_inv; [done|].
    apply method_range_lt in Hi. lia.
Qed.

Lemma Router_register_inv (v : verb) (path : string) (handler : Handler)
    (mws : list Middleware) (r : Router) :
  Router_inv r →
  ∃ r', Router_register v path handler mws r = Some r' ∧ Router_inv r'.
Proof.
  intros Hinv.
  destruct v; cbn; try by (apply addRoute_Router_inv; [done|unfold mAny; cbv; lia]).
  by apply ANY_Router_inv.
Qed.

Lemma Group_register_inv (g : Group) (v : verb) (path : string) (handler : Handler)
    (mws : list Middleware) (r : Router) :
  Router_inv r →
  ∃ r', Group_register g v path handler mws r = Some r' ∧ Router_inv r'.
Proof.
  intros Hinv.
  destruct v; cbn;
    try by (apply addRoute_Router_inv; [done|unfold mAny; cbv; lia]).
  unfold Group_ANY. case_match.
  - by apply addCatchAll_Router_inv.
  - apply (foldl_bind_total (fun i r => Group_addRoute g i path handler mws r)
             Router_inv); [|done].
    intros i r0 Hi Hr0. apply addRoute_Router_inv; [done|].
    apply method_range_lt in Hi. lia.
Qed.

(** No call of the API panics on a router the API built, and the router it
    leaves satisfies the invariant again. *)
Lemma apply_call_inv (c : call) (r : Router) :
  Router_inv r → ∃ r', apply_call c r = Some r' ∧ Router_inv r'.
Proof.
  intros Hinv. destruct c as [v path h mws|g v path h mws|mws]; cbn.
  - by apply Router_register_inv.
  - by apply Group_register_inv.
  - eexists; split; [done|]. by apply Use_Router_inv.
Qed.

Lemma reachable_inv (r : Router) : reachable r → Router_inv r.
Proof.
  induction 1 as [|c r r' _ IH E]; [apply Router_inv_New|].
  destruct (apply_call_inv c r IH) as (r'' & E' & Hinv). congruence.
Qed.

Lemma run_reachable (cs : list call) (r r' : Router) :
  reachable r → run cs r = Some r' → reachable r'.
Proof.
  revert r. induction cs as [|c cs IH]; intros r Hr; cbn.
  - by intros [= <-].
  - destruct (apply_call c r) as [r1|] eqn:E; [|done]. cbn.
    apply IH. by eapply reachable_call.
Qed.


(** ** Dispatch: the claims *)

(** C1. A request whose normalized path has a static route with a handler
    for its method is served by exactly that handler, on the request as it
    came in: with the compiled closure and without it, and whatever the
    catch-all route is.  (A route has handlers only for GET, POST, PUT,
    DELETE and PATCH, so the method is one of the five.) *)
Theorem static_route_dispatch (r : Router) (req : Request) (w : ResponseWriter)
    (rt : route) (h : routeHandler) :
  static r !! normalized req = Some rt →
  getHandler rt (Method req) = Some h →
  Method req ∈ std_methods
  ∧ ServeHTTP r req w = handler h req w
  ∧ ∀ code ca,
      ServeHTTP (set_staticCode code (set_catchAll ca r)) req w
      = handler h req w.
Proof.
  intros Hrt Hh. split; [by eapply getHandler_std|].
  assert (Hopt : String.eqb (Method req) MethodOptions = false).
  { apply String.eqb_neq. intros E. rewrite E in Hh. by rewrite getHandler_Options in Hh. }
  split; [|intros code ca]; rewrite ServeHTTP_dispatch, Hopt;
    unfold static_match; cbn [static set_staticCode set_catchAll];
    by rewrite Hrt; cbn; rewrite Hh.
Qed.

Lemma static_route_dispatch_witness :
  let req := request "GET" "/api/" in
  let h := mkRouteHandler (mark "A" (mark "C" (reply "Welcome"))) in
  let rt := {| handlers := [Some h; None; None; None; None; None];
               isParam := false; isWild := false |} in
  (static demo_router !! normalized req = Some rt
   ∧ getHandler rt (Method req) = Some h)
  ∧ ServeHTTP demo_router req NewRecorder = handler h req NewRecorder.
Proof.
  intros req h rt.
  assert (H1 : static demo_router !! normalized req = Some rt) by (vm_compute; reflexivity).
  assert (H2 : getHandler rt (Method req) = Some h) by reflexivity.
  split; [exact (conj H1 H2)|].
  exact (proj1 (proj2 (static_route_dispatch demo_router req NewRecorder rt h H1 H2))).
Defined.

(** C4. An OPTIONS request is answered with the header Allow set to the
    fixed list and, on a writer whose status is not yet written, the status
    no-content; the body is untouched, and the reply is the same for every
    router: no table is read and no handler is called. *)
Theorem options_reply (r : Router) (req : Request) (w : ResponseWriter) :
  Method req = MethodOptions →
  ServeHTTP r req w
  = WriteHeader StatusNoContent
      (Header_Set "Allow" "GET,POST,PUT,DELETE,PATCH,OPTIONS" w)
  ∧ Header (ServeHTTP r req w) !! "Allow"
    = Some "GET,POST,PUT,DELETE,PATCH,OPTIONS"
  ∧ (Code w = None → Code (ServeHTTP r req w) = Some StatusNoContent)
  ∧ Body (ServeHTTP r req w) = Body w
  ∧ ∀ r', ServeHTTP r' req w = ServeHTTP r req w.
Proof.
  intros Hm.
  assert (E : ∀ r0, ServeHTTP r0 req w
                    = WriteHeader StatusNoContent
                        (Header_Set "Allow" "GET,POST,PUT,DELETE,PATCH,OPTIONS" w)).
  { intros r0. unfold ServeHTTP. by rewrite Hm. }
  rewrite !E. split; [done|].
  destruct w as [hd [c|] body]; cbn; repeat split; try done;
    apply lookup_insert_eq.
Qed.

Lemma options_reply_witness :
  Method (request "OPTIONS" "/nowhere") = MethodOptions
  ∧ Code (ServeHTTP New (request "OPTIONS" "/nowhere") NewRecorder)
    = Some StatusNoContent.
Proof.
  split; [reflexivity|].
  exact (proj1 (proj2 (proj2
    (options_reply New (request "OPTIONS" "/nowhere") NewRecorder eq_refl)))
    eq_refl).
Defined.

(** C5. A request that is not OPTIONS gets the not-found reply when its
    method is none of the five, and when neither the static route of its
    normalized path (if any) nor the catch-all route (if any) has a handler
    for its method.  The reply is [http.NotFound]'s: no handler of the
    router takes part in it. *)
Theorem not_found_reply (r : Router) (req : Request) (w : ResponseWriter) :
  Method req ≠ MethodOptions →
  Method req ∉ std_methods
  ∨ ((∀ rt, static r !! normalized req = Some rt →
            getHandler rt (Method req) = None)
     ∧ (catchAll r = None
        ∨ ∃ ca, catchAll r = Some ca ∧ getHandler ca (Method req) = None)) →
  ServeHTTP r req w = NotFound req w.
Proof.
  intros Hopt Hmiss.
  rewrite ServeHTTP_dispatch.
  apply String.eqb_neq in Hopt. rewrite Hopt.
  assert (Hs : static_match r (normalized req) (Method req) = None).
  { unfold static_match. destruct (static r !! normalized req) as [rt|] eqn:E; [|done].
    cbn. destruct Hmiss as [Hm|[Hs _]]; [by apply getHandler_other|by apply Hs]. }
  assert (Hc : catchAll_match r (Method req) = None).
  { unfold catchAll_match. destruct (catchAll r) as [ca|] eqn:E; [|done].
    cbn. destruct Hmiss as [Hm|[_ [Hc|(ca' & Hc & Hg)]]];
      [by apply getHandler_other|done|congruence]. }
  by rewrite Hs, Hc.
Qed.

Lemma not_found_reply_witness :
  (Method (request "GET" "/users/42") ≠ MethodOptions
   ∧ (∀ rt, static api_router !! normalized (request "GET" "/users/42") = Some rt →
            getHandler rt (Method (request "GET" "/users/42")) = None)
   ∧ catchAll api_router = None)
  ∧ ServeHTTP api_router (request "GET" "/users/42") NewRecorder
    = NotFound (request "GET" "/users/42") NewRecorder.
Proof.
  assert (H1 : Method (request "GET" "/users/42") ≠ MethodOptions) by discriminate.
  assert (H2 : ∀ rt, static api_router !! normalized (request "GET" "/users/42") = Some rt →
                     getHandler rt (Method (request "GET" "/users/42")) = None).
  { intros rt. vm_compute. discriminate. }
  assert (H3 : catchAll api_router = None) by (vm_compute; reflexivity).
  split; [exact (conj H1 (conj H2 H3))|].
  apply (not_found_reply api_router (request "GET" "/users/42") NewRecorder H1).
  right. split; [exact H2|left; exact H3].
Defined.

(** ** Reachable routers and the compiled closure *)

Lemma run_demo_calls : run demo_calls New = Some demo_router.
Proof. vm_compute. reflexivity. Qed.

Lemma run_api_calls : run api_calls New = Some api_router.
Proof. vm_compute. reflexivity. Qed.

Lemma run_pattern_calls : run pattern_calls New = Some pattern_router.
Proof. vm_compute. reflexivity. Qed.

Lemma reachable_demo_router : reachable demo_router.
Proof. exact (run_reachable demo_calls New demo_router reachable_New run_demo_calls). Qed.

Lemma reachable_api_router : reachable api_router.
Proof. exact (run_reachable api_calls New api_router reachable_New run_api_calls). Qed.

Lemma reachable_pattern_router : reachable pattern_router.
Proof.
  exact (run_reachable pattern_calls New pattern_router reachable_New run_pattern_calls).
Qed.

(** C9. In every router reached from [New] by calls of the API (route,
    catch-all and group registrations, [Use]), the compiled closure is
    there exactly when the static partition has a route; with an empty
    static partition there is none. *)
Theorem compiled_iff_static (r : Router) :
  reachable r →
  (staticCode r ≠ None ↔ static r ≠ ∅)
  ∧ (static r = ∅ → staticCode r = None).
Proof.
  intros Hr. pose proof (inv_compiled r (reachable_inv r Hr)) as [H1 H2].
  split; [split|].
  - intros Hc. apply H1. by destruct (staticCode r); [eexists|].
  - intros Hs. destruct (H2 Hs) as [c ->]. done.
  - intros Hs. destruct (staticCode r) eqn:E; [|done].
    exfalso. apply H1; [by eexists|done].
Qed.

Lemma compiled_iff_static_witness :
  reachable pattern_router
  ∧ static pattern_router = ∅
  ∧ staticCode pattern_router = None.
Proof.
  assert (Hs : static pattern_router = ∅) by (vm_compute; reflexivity).
  split; [exact reachable_pattern_router|]. split; [exact Hs|].
  exact (proj2 (compiled_iff_static pattern_router reachable_pattern_router) Hs).
Defined.

(** A fresh router has no compiled closure; the example router, which has a
    static route, has one. *)
Example New_not_compiled : static New = ∅ ∧ staticCode New = None.
Proof. split; vm_compute; reflexivity. Qed.

Example demo_router_compiled :
  static demo_router ≠ ∅ ∧ staticCode demo_router = Some compiledStatic.
Proof.
  split; [|vm_compute; reflexivity].
  intros E. assert (H : static demo_router !! "api" = None) by (rewrite E; apply lookup_empty).
  vm_compute in H. discriminate H.
Qed.

(** ** Dispatch to the catch-all route *)

Lemma static_match_None (r : Router) (path method : string) :
  (∀ rt, static r !! path = Some rt → getHandler rt method = None)
  ↔ static_match r path method = None.
Proof.
  unfold static_match. destruct (static r !! path) as [rt|]; cbn.
  - split; [by intros H; apply H|]. by intros H rt' [= <-].
  - split; [done|]. by intros _ rt' ?.
Qed.

(** When the static partition has no handler for the request, dispatch goes
    to the catch-all route's handler for the method if there is one, on a
    request that carries the normalized path, and else to not-found. *)
Lemma ServeHTTP_unmatched (r : Router) (req : Request) (w : ResponseWriter) :
  Method req ≠ MethodOptions →
  static_match r (normalized req) (Method req) = None →
  ServeHTTP r req w
  = match catchAll_match r (Method req) with
    | Some h => handler h (with_params req (normalized req)) w
    | None => NotFound req w
    end.
Proof.
  intros Hopt Hs. rewrite ServeHTTP_dispatch.
  apply String.eqb_neq in Hopt. by rewrite Hopt, Hs.
Qed.

Lemma std_method_not_Options (method : string) :
  method ∈ std_methods → method ≠ MethodOptions.
Proof.
  unfold std_methods. rewrite !elem_of_cons, elem_of_nil.
  intros [->|[->|[->|[->|[->|[]]]]]]; discriminate.
Qed.

(** In a router the API built, a catch-all route has a handler for each of
    the five methods. *)
Lemma catchAll_handles_std (r : Router) (ca : route) (method : string) :
  Router_inv r → catchAll r = Some ca → method ∈ std_methods →
  is_Some (getHandler ca method).
Proof.
  intros Hinv Hca Hm.
  destruct (getHandler_slot ca method Hm) as (i & Hi & ->).
  by eapply inv_catchAll_full.
Qed.

(** C2. In a router built by the API that has a catch-all route, a request
    with one of the five methods and no static handler for its normalized
    path is served by the catch-all route's handler for the method, and the
    request that handler receives carries the normalized path: [GetParams]
    returns it. *)
Theorem catchAll_dispatch (r : Router) (req : Request) (ca : route) :
  reachable r →
  Method req ∈ std_methods →
  (∀ rt, static r !! normalized req = Some rt →
         getHandler rt (Method req) = None) →
  catchAll r = Some ca →
  ∃ h, getHandler ca (Method req) = Some h
       ∧ (∀ w, ServeHTTP r req w
               = handler h (with_params req (normalized req)) w)
       ∧ GetParams (with_params req (normalized req)) = normalized req.
Proof.
  intros Hr Hm Hs Hca.
  destruct (catchAll_handles_std r ca (Method req) (reachable_inv r Hr) Hca Hm)
    as [h Hh].
  exists h. split; [done|]. split; [|apply GetParams_with_params].
  intros w. rewrite ServeHTTP_unmatched.
  - unfold catchAll_match. rewrite Hca. cbn. by rewrite Hh.
  - by apply std_method_not_Options.
  - by apply static_match_None.
Qed.

Lemma catchAll_dispatch_witness :
  let req := request "GET" "/random/" in
  let h := mkRouteHandler (mark "A" (reply "Not found: ")) in
  let ca := {| handlers := [Some h; Some h; Some h; Some h; Some h; None];
               isParam := false; isWild := false |} in
  (reachable demo_router
   ∧ Method req ∈ std_methods
   ∧ (∀ rt, static demo_router !! normalized req = Some rt →
            getHandler rt (Method req) = None)
   ∧ catchAll demo_router = Some ca)
  ∧ ∃ h, getHandler ca (Method req) = Some h
         ∧ (∀ w, ServeHTTP demo_router req w
                 = handler h (with_params req (normalized req)) w)
         ∧ GetParams (with_params req (normalized req)) = normalized req.
Proof.
  intros req h ca.
  assert (H2 : Method req ∈ std_methods) by (apply list_elem_of_here).
  assert (H3 : ∀ rt, static demo_router !! normalized req = Some rt →
                     getHandler rt (Method req) = None).
  { intros rt. vm_compute. discriminate. }
  assert (H4 : catchAll demo_router = Some ca) by (vm_compute; reflexivity).
  split; [exact (conj reachable_demo_router (conj H2 (conj H3 H4)))|].
  exact (catchAll_dispatch demo_router req ca reachable_demo_router H2 H3 H4).
Defined.

(** The usage example of the package: the static route answers on its own
    path, the catch-all on any other path, with the path as parameter. *)
Example demo_router_replies :
  Body (ServeHTTP demo_router (request "GET" "/random") NewRecorder)
  = "ANot found: random"
  ∧ Body (ServeHTTP demo_router (request "GET" "/api") NewRecorder)
    = "ACWelcome".
Proof. split; vm_compute; reflexivity. Qed.

(** ** Registration: the claims *)

(** C6. Registering a method and a path whose route exists already, in a
    router built by the API, writes the newly composed handler into the slot
    of that method of the existing route and nothing else: the other slots
    and the flags of the route, the routes under every other key of every
    partition, the catch-all route and the global middlewares are what they
    were. *)
Theorem addRoute_replaces_one_slot (r : Router) (method : nat) (path : string)
    (handler : Handler) (mws : list Middleware) (rt : route) :
  reachable r →
  method ∈ method_range →
  routes_of (classify path).1 r !! (classify path).2 = Some rt →
  ∃ r' rt',
    addRoute method path handler mws r = Some r'
    ∧ routes_of (classify path).1 r' !! (classify path).2 = Some rt'
    ∧ slot rt' method
      = Some (mkRouteHandler (composeHandler handler (globalMWs r ++ mws)))
    ∧ (∀ m, m ≠ method → handlers rt' !! m = handlers rt !! m)
    ∧ isParam rt' = isParam rt ∧ isWild rt' = isWild rt
    ∧ (∀ p k, (p, k) ≠ classify path →
              routes_of p r' !! k = routes_of p r !! k)
    ∧ catchAll r' = catchAll r
    ∧ globalMWs r' = globalMWs r.
Proof.
  intros Hr Hm Hrt. pose proof (reachable_inv r Hr) as Hinv.
  pose proof (classify_flags path
    {| handlers := []; isParam := Contains (Trim path "/") ":";
       isWild := HasSuffix (Trim path "/") "*" |} eq_refl eq_refl) as [Hfw Hfp].
  cbn [isParam isWild] in Hfw, Hfp.
  destruct (classify path) as [part key] eqn:Ec. cbn [fst snd] in *.
  pose proof (inv_wf r Hinv _ _ _ Hrt) as Hwf. unfold route_wf in Hwf.
  destruct (inv_flags r Hinv _ _ _ Hrt) as [Hw Hp].
  apply method_range_lt in Hm.
  pose proof (addRoute_Some method path handler mws r part key Ec) as E.
  rewrite Hrt in E. change (default zero_route (Some rt)) with rt in E.
  rewrite E by (rewrite Hwf; lia). clear E.
  eexists _, _. split; [done|].
  rewrite routes_of_compileStatic, routes_of_set_routes, decide_True by done.
  rewrite lookup_insert_eq. split; [done|]. split; [|split; [|split; [|split]]].
  - unfold slot. cbn [handlers].
    by rewrite list_lookup_insert_eq by (rewrite Hwf; lia).
  - intros m Hne. cbn [handlers]. by rewrite list_lookup_insert_ne.
  - cbn [isParam]. by rewrite Hp, Hfp.
  - cbn [isWild]. by rewrite Hw, Hfw.
  - split; [|by rewrite catchAll_compileStatic, catchAll_set_routes,
                  globalMWs_compileStatic, globalMWs_set_routes].
    intros p k Hne. rewrite routes_of_compileStatic, routes_of_set_routes.
    case_decide as Ep; [|done]. subst p.
    rewrite lookup_insert_ne; [done|].
    intros Ek. apply Hne. by rewrite <- Ek.
Qed.

Lemma addRoute_replaces_one_slot_witness :
  let h1 := mkRouteHandler (reply "get-1") in
  let h2 := mkRouteHandler (reply "post-1") in
  let rt := {| handlers := [Some h1; Some h2; None; None; None; None];
               isParam := false; isWild := false |} in
  (reachable two_method_router
   ∧ mGet ∈ method_range
   ∧ routes_of (classify "api/").1 two_method_router !! (classify "api/").2
     = Some rt)
  ∧ ∃ r' rt',
      addRoute mGet "api/" (reply "get-2") [] two_method_router = Some r'
      ∧ routes_of (classify "api/").1 r' !! (classify "api/").2 = Some rt'
      ∧ slot rt' mGet
        = Some (mkRouteHandler
                  (composeHandler (reply "get-2")
                     (globalMWs two_method_router ++ [])))
      ∧ (∀ m, m ≠ mGet → handlers rt' !! m = handlers rt !! m)
      ∧ isParam rt' = isParam rt ∧ isWild rt' = isWild rt
      ∧ (∀ p k, (p, k) ≠ classify "api/" →
                routes_of p r' !! k = routes_of p two_method_router !! k)
      ∧ catchAll r' = catchAll two_method_router
      ∧ globalMWs r' = globalMWs two_method_router.
Proof.
  intros h1 h2 rt.
  assert (H1 : reachable two_method_router).
  { apply (run_reachable two_method_calls New); [exact reachable_New|].
    vm_compute. reflexivity. }
  assert (H2 : mGet ∈ method_range) by (apply list_elem_of_here).
  assert (H3 : routes_of (classify "api/").1 two_method_router !! (classify "api/").2
               = Some rt) by (vm_compute; reflexivity).
  split; [exact (conj H1 (conj H2 H3))|].
  exact (addRoute_replaces_one_slot two_method_router mGet "api/" (reply "get-2")
           [] rt H1 H2 H3).
Defined.

(** Registering GET again on a path that also has a POST handler: GET is
    answered by the new handler, POST by the one it had. *)
Example reregistration_replies :
  (fun r => Body (ServeHTTP r (request "GET" "/api") NewRecorder))
    <$> GET "/api" (reply "get-2") [] two_method_router = Some "get-2"
  ∧ (fun r => Body (ServeHTTP r (request "POST" "/api") NewRecorder))
      <$> GET "/api" (reply "get-2") [] two_method_router = Some "post-1".
Proof. split; vm_compute; reflexivity. Qed.

(** What [addCatchAll] does to a router built by the API. *)
Lemma addCatchAll_effect (fn : Handler) (mws : list Middleware) (r : Router) :
  Router_inv r →
  let h := mkRouteHandler (composeHandler fn (globalMWs r ++ mws)) in
  let old := default zero_route (catchAll r) in
  ∃ r' ca',
    addCatchAll fn mws r = Some r'
    ∧ catchAll r' = Some ca'
    ∧ (∀ i, i ∈ method_range → slot ca' i = Some h)
    ∧ slot ca' mAny = slot old mAny
    ∧ isParam ca' = isParam old ∧ isWild ca' = isWild old
    ∧ (∀ p, routes_of p r' = routes_of p r)
    ∧ globalMWs r' = globalMWs r
    ∧ staticCode r' = staticCode r
    ∧ (∀ req w,
         Method req ∈ std_methods →
         (∀ rt, static r' !! normalized req = Some rt →
                getHandler rt (Method req) = None) →
         ServeHTTP r' req w
         = handler h (with_params req (normalized req)) w).
Proof.
  intros Hinv h old.
  assert (Hwf : route_wf old).
  { subst old. destruct (catchAll r) as [ca|] eqn:E; cbn; [|done].
    by eapply inv_catchAll_wf. }
  rewrite addCatchAll_Some by done. fold h old.
  eexists _, _. split; [done|]. split; [done|].
  assert (Hslots : ∀ i, i ∈ method_range →
            slot {| handlers := [Some h; Some h; Some h; Some h; Some h; slot old mAny];
                    isParam := isParam old; isWild := isWild old |} i = Some h).
  { intros i Hi. apply method_range_lt in Hi. unfold mAny in Hi.
    do 5 (destruct i as [|i]; [done|]). lia. }
  split; [exact Hslots|].
  split; [done|]. split; [done|]. split; [done|].
  split; [by intros []|]. split; [done|]. split; [done|].
  intros req w Hm Hs. rewrite ServeHTTP_unmatched.
  - unfold catchAll_match. cbn [catchAll set_catchAll mbind option_bind].
    destruct (getHandler_slot
      {| handlers := [Some h; Some h; Some h; Some h; Some h; slot old mAny];
         isParam := isParam old; isWild := isWild old |} (Method req) Hm)
      as (i & Hi & ->).
    by rewrite Hslots.
  - by apply std_method_not_Options.
  - by apply static_match_None.
Qed.

(** C7. [ANY] with the path ["*"], on a router built by the API, leaves a
    catch-all route (the one that was there, or a fresh one) whose slots for
    GET, POST, PUT, DELETE and PATCH all hold the one handler composed from
    the global middlewares, the given middlewares and the given handler;
    nothing else of the router changes, and every request with one of the
    five methods and no static handler for its path is served by that
    handler. *)
Theorem catch_all_registration (fn : Handler) (mws : list Middleware)
    (r : Router) :
  reachable r →
  let h := mkRouteHandler (composeHandler fn (globalMWs r ++ mws)) in
  let old := default zero_route (catchAll r) in
  ∃ r' ca',
    ANY "*" fn mws r = Some r'
    ∧ catchAll r' = Some ca'
    ∧ (∀ i, i ∈ method_range → slot ca' i = Some h)
    ∧ slot ca' mAny = slot old mAny
    ∧ isParam ca' = isParam old ∧ isWild ca' = isWild old
    ∧ (∀ p, routes_of p r' = routes_of p r)
    ∧ globalMWs r' = globalMWs r
    ∧ staticCode r' = staticCode r
    ∧ (∀ req w,
         Method req ∈ std_methods →
         (∀ rt, static r' !! normalized req = Some rt →
                getHandler rt (Method req) = None) →
         ServeHTTP r' req w
         = handler h (with_params req (normalized req)) w).
Proof.
  intros Hr. change (ANY "*" fn mws r) with (addCatchAll fn mws r).
  apply addCatchAll_effect. by apply reachable_inv.
Qed.

Lemma catch_all_registration_witness :
  reachable api_router
  ∧ ∃ r' ca',
      ANY "*" (reply "Not found: ") [mark "M"] api_router = Some r'
      ∧ catchAll r' = Some ca'
      ∧ (∀ i, i ∈ method_range →
              slot ca' i
              = Some (mkRouteHandler
                        (composeHandler (reply "Not found: ")
                           (globalMWs api_router ++ [mark "M"]))))
      ∧ slot ca' mAny = slot (default zero_route (catchAll api_router)) mAny
      ∧ isParam ca' = isParam (default zero_route (catchAll api_router))
      ∧ isWild ca' = isWild (default zero_route (catchAll api_router))
      ∧ (∀ p, routes_of p r' = routes_of p api_router)
      ∧ globalMWs r' = globalMWs api_router
      ∧ staticCode r' = staticCode api_router
      ∧ (∀ req w,
           Method req ∈ std_methods →
           (∀ rt, static r' !! normalized req = Some rt →
                  getHandler rt (Method req) = None) →
           ServeHTTP r' req w
           = handler (mkRouteHandler
                        (composeHandler (reply "Not found: ")
                           (globalMWs api_router ++ [mark "M"])))
               (with_params req (normalized req)) w).
Proof.
  split; [exact reachable_api_router|].
  exact (catch_all_registration (reply "Not found: ") [mark "M"] api_router
           reachable_api_router).
Defined.

(** After the catch-all registration, each of the five methods on a path
    without a static route is answered by the registered handler, behind
    the global and the given middleware. *)
Example catch_all_replies :
  (fun r => (fun m => Body (ServeHTTP r (request m "/users/42") NewRecorder))
              <$> std_methods)
    <$> ANY "*" (reply "Not found: ") [mark "M"] api_router
  = Some (replicate 5 "AMNot found: users/42").
Proof. vm_compute. reflexivity. Qed.

(** C10. [ANY] with the path ["*"] on a group is the catch-all registration
    of the router with the group's middlewares put before the given ones:
    the prefix of the group plays no part (a group with another prefix and
    the same middlewares gives the same router), no key of any partition is
    added or changed, and the handler, composed from the global
    middlewares, then the group's, then the given ones, serves every request
    with one of the five methods and no static handler, whatever its path. *)
Theorem group_catch_all (g : Group) (fn : Handler) (mws : list Middleware)
    (r : Router) :
  reachable r →
  let h := mkRouteHandler
             (composeHandler fn (globalMWs r ++ Group_mws g ++ mws)) in
  Group_ANY g "*" fn mws r = ANY "*" fn (Group_mws g ++ mws) r
  ∧ (∀ prefix,
       Group_ANY {| Group_prefix := prefix; Group_mws := Group_mws g |}
         "*" fn mws r
       = Group_ANY g "*" fn mws r)
  ∧ ∃ r' ca',
      Group_ANY g "*" fn mws r = Some r'
      ∧ catchAll r' = Some ca'
      ∧ (∀ i, i ∈ method_range → slot ca' i = Some h)
      ∧ (∀ p, routes_of p r' = routes_of p r)
      ∧ (∀ req w,
           Method req ∈ std_methods →
           (∀ rt, static r' !! normalized req = Some rt →
                  getHandler rt (Method req) = None) →
           ServeHTTP r' req w
           = handler h (with_params req (normalized req)) w).
Proof.
  intros Hr h. split; [done|]. split; [done|].
  change (Group_ANY g "*" fn mws r)
    with (addCatchAll fn (Group_mws g ++ mws) r).
  destruct (addCatchAll_effect fn (Group_mws g ++ mws) r (reachable_inv r Hr))
    as (r' & ca' & E & Hca & Hslots & _ & _ & _ & Hroutes & _ & _ & Hserve).
  by exists r', ca'.
Qed.

Lemma group_catch_all_witness :
  reachable api_router
  ∧ Group_ANY admin_group "*" (reply "Caught: ") [mark "M"] api_router
    = ANY "*" (reply "Caught: ") (Group_mws admin_group ++ [mark "M"]) api_router.
Proof.
  split; [exact reachable_api_router|].
  exact (proj1 (group_catch_all admin_group (reply "Caught: ") [mark "M"]
                  api_router reachable_api_router)).
Defined.

(** The catch-all registered on the group below "api/v1/admin" answers a
    path outside that prefix, behind the global, the group's and the given
    middlewares, and no key carries the prefix. *)
Example group_catch_all_replies :
  Group_prefix admin_group = "api/v1/admin"
  ∧ (fun r => Body (ServeHTTP r (request "PUT" "/elsewhere/x") NewRecorder))
      <$> Group_ANY admin_group "*" (reply "Caught: ") [mark "M"] api_router
    = Some "ALUMCaught: elsewhere/x"
  ∧ (fun r => (static r, params r, wildcards r))
      <$> Group_ANY admin_group "*" (reply "Caught: ") [mark "M"] api_router
    = Some (static api_router, params api_router, wildcards api_router).
Proof. repeat split; vm_compute; reflexivity. Qed.

(** ** The parameterized and wildcard partitions *)

Lemma same_live_tables_ServeHTTP (r1 r2 : Router) (req : Request) (w : ResponseWriter) :
  same_live_tables r1 r2 → ServeHTTP r1 req w = ServeHTTP r2 req w.
Proof.
  intros (Hs & Hc & _). rewrite !ServeHTTP_dispatch.
  unfold static_match, catchAll_match. by rewrite Hs, Hc.
Qed.

Lemma same_live_tables_refl (r : Router) : same_live_tables r r.
Proof. done. Qed.

(** [addRoute] on a parameterized or wildcard path leaves the static
    partition, the catch-all route and the global middlewares alone; on a
    static path it reads and writes nothing but the static partition and
    reads the global middlewares. *)
Lemma addRoute_sim (method : nat) (path : string) (handler : Handler)
    (mws : list Middleware) (r1 r2 r1' : Router) :
  same_live_tables r1 r2 →
  addRoute method path handler mws r1 = Some r1' →
  match (classify path).1 with
  | Static => ∃ r2', addRoute method path handler mws r2 = Some r2'
                     ∧ same_live_tables r1' r2'
  | _ => same_live_tables r1' r2
  end.
Proof.
  intros (Hs & Hc & Hg) E.
  destruct (classify path) as [part key] eqn:Ec. cbn [fst].
  pose proof (addRoute_inv_Some _ _ _ _ _ _ part key Ec E) as Hlt.
  rewrite (addRoute_Some _ _ _ _ _ part key Ec) in E by done. injection E as <-.
  unfold same_live_tables.
  rewrite catchAll_compileStatic, catchAll_set_routes,
    globalMWs_compileStatic, globalMWs_set_routes.
  change (static (compileStatic ?r)) with (routes_of Static (compileStatic r)).
  rewrite routes_of_compileStatic.
  destruct part.
  - cbn [routes_of] in Hlt. rewrite Hs in Hlt.
    rewrite (addRoute_Some _ _ _ _ _ Static key Ec) by done.
    eexists; split; [done|].
    rewrite catchAll_compileStatic, globalMWs_compileStatic.
    change (static (compileStatic ?r)) with (routes_of Static (compileStatic r)).
    rewrite routes_of_compileStatic. cbn. by rewrite Hs, Hg.
  - done.
  - done.
Qed.

Lemma addCatchAll_sim (handler : Handler) (mws : list Middleware)
    (r1 r2 r1' : Router) :
  same_live_tables r1 r2 →
  addCatchAll handler mws r1 = Some r1' →
  ∃ r2', addCatchAll handler mws r2 = Some r2' ∧ same_live_tables r1' r2'.
Proof.
  intros (Hs & Hc & Hg). unfold addCatchAll. rewrite <- Hc, <- Hg.
  match goal with |- context [foldl ?f ?a ?l] => destruct (foldl f a l) as [hs|] end;
    [|done].
  cbn. intros [= <-]. by eexists.
Qed.

Lemma Use_sim (mws : list Middleware) (r1 r2 : Router) :
  same_live_tables r1 r2 → same_live_tables (Use mws r1) (Use mws r2).
Proof.
  intros (Hs & Hc & Hg). unfold same_live_tables.
  rewrite !catchAll_Use, !globalMWs_Use.
  change (static (Use mws ?r)) with (routes_of Static (Use mws r)).
  rewrite !routes_of_Use. cbn. by rewrite Hs, Hc, Hg.
Qed.

(** The shape of a call: [Use], the catch-all registration, or [addRoute]
    on one path for a list of method indices. *)
Lemma apply_call_cases (c : call) :
  (∃ mws, c = UseCall mws)
  ∨ (∃ handler mws,
       call_partition c = None
       ∧ ∀ r, apply_call c r = addCatchAll handler mws r)
  ∨ (∃ path handler mws l,
       call_partition c = Some (classify path).1
       ∧ ∀ r, apply_call c r
              = foldl (fun acc i => r ← acc; addRoute i path handler mws r)
                      (Some r) l).
Proof.
  destruct c as [v path h mws|g v path h mws|mws]; [| |by left; eexists].
  - destruct v;
      try (right; right; exists path, h, mws; eexists [_]; by split).
    cbn. unfold ANY. destruct (String.eqb path "*") eqn:E.
    + right; left. by exists h, mws.
    + right; right. by exists path, h, mws, method_range.
  - destruct v;
      try (right; right;
           exists (Group_prefix g +:+ "/" +:+ Trim path "/"), h, (Group_mws g ++ mws);
           eexists [_]; by split).
    cbn. unfold Group_ANY. destruct (String.eqb path "*") eqn:E.
    + right; left. by exists h, (Group_mws g ++ mws).
    + right; right.
      by exists (Group_prefix g +:+ "/" +:+ Trim path "/"), h,
                (Group_mws g ++ mws), method_range.
Qed.

Lemma apply_call_sim (c : call) (r1 r2 r1' : Router) :
  same_live_tables r1 r2 →
  apply_call c r1 = Some r1' →
  if registers_pattern c then same_live_tables r1' r2
  else ∃ r2', apply_call c r2 = Some r2' ∧ same_live_tables r1' r2'.
Proof.
  intros Hsim E. unfold registers_pattern.
  destruct (apply_call_cases c)
    as [[mws ->]|[(h & mws & -> & Hc)|(path & h & mws & l & -> & Hc)]].
  - cbn in *. injection E as <-. eexists; split; [done|]. by apply Use_sim.
  - rewrite Hc in *. by eapply addCatchAll_sim.
  - rewrite Hc in *. destruct (classify path).1 eqn:Ep.
    + revert E. apply foldl_bind_sim; [|done].
      intros i s1 s2 s1' Hs Ei.
      pose proof (addRoute_sim i path h mws s1 s2 s1' Hs Ei) as H.
      by rewrite Ep in H.
    + revert E.
      apply (foldl_bind_preserve (fun i r => addRoute i path h mws r)
               (fun r => same_live_tables r r2)); [|done].
      intros i s s' Hs Ei.
      pose proof (addRoute_sim i path h mws s r2 s' Hs Ei) as H.
      by rewrite Ep in H.
    + revert E.
      apply (foldl_bind_preserve (fun i r => addRoute i path h mws r)
               (fun r => same_live_tables r r2)); [|done].
      intros i s s' Hs Ei.
      pose proof (addRoute_sim i path h mws s r2 s' Hs Ei) as H.
      by rewrite Ep in H.
Qed.

(** Dropping the registrations of parameterized and wildcard routes from a
    history of calls leaves the static partition, the catch-all route and
    the global middlewares as they are with them. *)
Lemma run_without_patterns (cs : list call) (r1 r2 r1' : Router) :
  same_live_tables r1 r2 →
  run cs r1 = Some r1' →
  ∃ r2', run (without_patterns cs) r2 = Some r2' ∧ same_live_tables r1' r2'.
Proof.
  revert r1 r2. induction cs as [|c cs IH]; intros r1 r2 Hsim; cbn.
  - intros [= <-]. by eexists.
  - destruct (apply_call c r1) as [r1a|] eqn:E; [|done]. cbn. intros Hrun.
    pose proof (apply_call_sim c r1 r2 r1a Hsim E) as H.
    destruct (registers_pattern c); cbn.
    + by eapply IH.
    + destruct H as (r2a & -> & Hsim'). cbn. by eapply IH.
Qed.

Lemma ServeHTTP_ignores_patterns (r : Router) (ps ws : gmap string route)
    (req : Request) (w : ResponseWriter) :
  ServeHTTP (set_routes Params ps (set_routes Wildcards ws r)) req w
  = ServeHTTP r req w.
Proof. by apply same_live_tables_ServeHTTP. Qed.

(** C8. The parameterized and wildcard partitions take no part in dispatch.
    For a router reached by a history of calls: replacing the two
    partitions by any others changes no reply; the router reached by the
    same history without its parameterized and wildcard registrations gives
    the same reply; and a request without a static handler is served by the
    catch-all route's handler for its method if there is one and gets the
    not-found reply otherwise. *)
Theorem patterns_not_consulted (cs : list call) (r : Router) (req : Request)
    (w : ResponseWriter) :
  run cs New = Some r →
  (∀ ps ws,
     ServeHTTP (set_routes Params ps (set_routes Wildcards ws r)) req w
     = ServeHTTP r req w)
  ∧ (∃ r', run (without_patterns cs) New = Some r'
           ∧ ServeHTTP r' req w = ServeHTTP r req w)
  ∧ (Method req ≠ MethodOptions →
     (∀ rt, static r !! normalized req = Some rt →
            getHandler rt (Method req) = None) →
     ServeHTTP r req w
     = match catchAll_match r (Method req) with
       | Some h => handler h (with_params req (normalized req)) w
       | None => NotFound req w
       end).
Proof.
  intros Hrun. split; [|split].
  - intros ps ws. apply ServeHTTP_ignores_patterns.
  - destruct (run_without_patterns cs New New r (same_live_tables_refl New) Hrun)
      as (r' & E & Hsim).
    exists r'. split; [done|]. symmetry. by apply same_live_tables_ServeHTTP.
  - intros Hopt Hs. apply ServeHTTP_unmatched; [done|]. by apply static_match_None.
Qed.

Lemma patterns_not_consulted_witness :
  let req := request "GET" "/users/42" in
  run demo_calls New = Some demo_router
  ∧ (∃ r', run (without_patterns demo_calls) New = Some r'
           ∧ ServeHTTP r' req NewRecorder
             = ServeHTTP demo_router req NewRecorder).
Proof.
  intros req. split; [exact run_demo_calls|].
  exact (proj1 (proj2 (patterns_not_consulted demo_calls demo_router req
                         NewRecorder run_demo_calls))).
Defined.

(** The registrations of "/users/:id" and "/files/*" are among the calls
    dropped; requests that these patterns describe go to the catch-all
    route when there is one and are not found when there is none. *)
Example pattern_requests :
  without_patterns demo_calls
  = [ UseCall [mark "A"];
      RouterCall vGET "/api" (reply "Welcome") [mark "C"];
      RouterCall vANY "*" (reply "Not found: ") [] ]
  ∧ Body (ServeHTTP demo_router (request "GET" "/users/42") NewRecorder)
    = "ANot found: users/42"
  ∧ Body (ServeHTTP demo_router (request "GET" "/files/docs/report.pdf") NewRecorder)
    = "ANot found: files/docs/report.pdf"
  ∧ ServeHTTP api_router (request "GET" "/users/42") NewRecorder
    = NotFound (request "GET" "/users/42") NewRecorder
  ∧ ServeHTTP api_router (request "GET" "/files/docs/report.pdf") NewRecorder
    = NotFound (request "GET" "/files/docs/report.pdf") NewRecorder.
Proof. repeat split; vm_compute; reflexivity. Qed.

(** ** Order of the middlewares *)

(** A composed chain of marking middlewares writes the marks in the order of
    the list and then runs the handler. *)
Lemma composeHandler_marks (h : Handler) (tags : list string) (req : Request)
    (w : ResponseWriter) :
  composeHandler h (mark <$> tags) req w
  = h req (foldl (fun w tag => Write tag w) w tags).
Proof.
  revert w. induction tags as [|tag tags IH]; intros w; [done|].
  cbn [fmap list_fmap]. rewrite composeHandler_cons. unfold mark at 1.
  by rewrite IH.
Qed.

(** A route registered when the global middlewares are the marks [gtags]
    runs them first, then the middlewares of the registration, then the
    handler. *)
Lemma addRoute_order (method : nat) (path : string) (fn : Handler)
    (gtags tags : list string) (r r' : Router) (rt : route)
    (req : Request) (w : ResponseWriter) :
  globalMWs r = mark <$> gtags →
  addRoute method path fn (mark <$> tags) r = Some r' →
  routes_of (classify path).1 r' !! (classify path).2 = Some rt →
  ∃ h, slot rt method = Some h
       ∧ handler h req w
         = fn req (foldl (fun w tag => Write tag w) w (gtags ++ tags)).
Proof.
  intros Hg E. destruct (classify path) as [part key] eqn:Ec. cbn [fst snd].
  pose proof (addRoute_inv_Some _ _ _ _ _ _ part key Ec E) as Hlt.
  rewrite (addRoute_Some _ _ _ _ _ part key Ec) in E by done. injection E as <-.
  rewrite routes_of_compileStatic, routes_of_set_routes, decide_True by done.
  rewrite lookup_insert_eq. intros [= <-].
  eexists. split.
  - unfold slot. cbn [handlers]. by rewrite list_lookup_insert_eq.
  - cbn [handler]. by rewrite Hg, <- fmap_app, composeHandler_marks.
Qed.

(** [Use] wraps what a slot holds, which has the global middlewares of the
    time of registration in it, with the whole list of global middlewares
    again. *)
Lemma Use_rewraps (mws : list Middleware) (r : Router) (p : partition)
    (k : string) (rt : route) (i : nat) (h : routeHandler) :
  routes_of p r !! k = Some rt →
  slot rt i = Some h →
  ∃ rt', routes_of p (Use mws r) !! k = Some rt'
         ∧ slot rt' i
           = Some (mkRouteHandler
                     (composeHandler (handler h) (globalMWs r ++ mws))).
Proof.
  intros Hrt Hh. rewrite routes_of_Use, lookup_fmap, Hrt. cbn.
  eexists. split; [done|]. by rewrite slot_recomposeRoute, Hh.
Qed.

(** In terms of marks: after [Use], a handler that was stored before runs
    behind the marks of all global middlewares, old and new; the old ones
    are in the stored handler as well. *)
Lemma Use_order (gtags tags : list string) (r : Router) (p : partition)
    (k : string) (rt : route) (i : nat) (h : routeHandler) (req : Request)
    (w : ResponseWriter) :
  globalMWs r = mark <$> gtags →
  routes_of p r !! k = Some rt →
  slot rt i = Some h →
  ∃ rt' h', routes_of p (Use (mark <$> tags) r) !! k = Some rt'
            ∧ slot rt' i = Some h'
            ∧ handler h' req w
              = handler h req (foldl (fun w tag => Write tag w) w (gtags ++ tags)).
Proof.
  intros Hg Hrt Hh.
  destruct (Use_rewraps (mark <$> tags) r p k rt i h Hrt Hh) as (rt' & E & Hs).
  eexists _, _. split; [exact E|]. split; [exact Hs|].
  cbn [handler]. by rewrite Hg, <- fmap_app, composeHandler_marks.
Qed.

(** C3. The order does not hold when [Use] is called after a route is
    registered while global middlewares exist already.  After [Use] of A,
    the registration of GET "/x" with the middleware C, and [Use] of B, a
    request to "/x" runs A, B, A again, C and the handler: the first global
    middleware runs twice, and B runs before the second run of A.  With
    both [Use] calls before the registration the order is A, B, then the
    middlewares of the registration, then the handler. *)
Theorem use_after_registration_rewraps :
  (fun r => Body (ServeHTTP r (request "GET" "/x") NewRecorder))
    <$> run use_twice_calls New = Some "ABACh"
  ∧ (fun r => Body (ServeHTTP r (request "GET" "/x") NewRecorder))
      <$> run use_first_calls New = Some "ABCDh".
Proof. split; vm_compute; reflexivity. Qed.

(** * Further properties *)

(** ** Trimming *)

Lemma TrimLeft_length (s cutset : string) :
  String.length (TrimLeft s cutset) ≤ String.length s.
Proof.
  induction s as [|c s IH]; cbn; [done|].
  destruct (inCutset c cutset); cbn; lia.
Qed.

(** A string that [TrimLeft] leaves alone is empty or starts outside the
    cutset. *)
Lemma TrimLeft_fixed (c : ascii) (s cutset : string) :
  TrimLeft (String c s) cutset = String c s → inCutset c cutset = false.
Proof.
  cbn. destruct (inCutset c cutset); [|done]. intros E.
  pose proof (TrimLeft_length s cutset) as H. rewrite E in H. cbn in H. lia.
Qed.

Lemma TrimLeft_idem (s cutset : string) :
  TrimLeft (TrimLeft s cutset) cutset = TrimLeft s cutset.
Proof.
  induction s as [|c s IH]; cbn; [done|].
  destruct (inCutset c cutset) eqn:E; [done|]. cbn. by rewrite E.
Qed.

Lemma TrimRight_cons (c : ascii) (s cutset : string) :
  TrimRight (String c s) cutset
  = match TrimRight s cutset with
    | EmptyString => if inCutset c cutset then EmptyString else String c EmptyString
    | t => String c t
    end.
Proof. reflexivity. Qed.

Lemma TrimRight_idem (s cutset : string) :
  TrimRight (TrimRight s cutset) cutset = TrimRight s cutset.
Proof.
  induction s as [|c s IH]; [done|].
  rewrite TrimRight_cons.
  destruct (TrimRight s cutset) as [|b t] eqn:E.
  - destruct (inCutset c cutset) eqn:Ec; [done|].
    rewrite TrimRight_cons. cbn. by rewrite Ec.
  - rewrite TrimRight_cons, IH. done.
Qed.

Lemma TrimRight_keeps_head (s cutset : string) :
  TrimLeft s cutset = s →
  TrimLeft (TrimRight s cutset) cutset = TrimRight s cutset.
Proof.
  destruct s as [|c s]; [done|]. intros H.
  apply TrimLeft_fixed in H. rewrite TrimRight_cons.
  destruct (TrimRight s cutset); rewrite ?H; cbn; by rewrite H.
Qed.

Lemma Trim_idem (s cutset : string) :
  Trim (Trim s cutset) cutset = Trim s cutset.
Proof.
  unfold Trim.
  rewrite (TrimRight_keeps_head (TrimLeft s cutset)) by apply TrimLeft_idem.
  apply TrimRight_idem.
Qed.

Lemma Trim_TrimLeft_fixed (s cutset : string) :
  TrimLeft (Trim s cutset) cutset = Trim s cutset.
Proof. unfold Trim. apply TrimRight_keeps_head, TrimLeft_idem. Qed.

Lemma Trim_TrimRight_fixed (s cutset : string) :
  TrimRight (Trim s cutset) cutset = Trim s cutset.
Proof. unfold Trim. apply TrimRight_idem. Qed.

Lemma TrimLeft_app (a b cutset : string) :
  a ≠ "" → TrimLeft a cutset = a → TrimLeft (a +:+ b) cutset = a +:+ b.
Proof.
  destruct a as [|c a]; [done|]. intros _ H.
  apply TrimLeft_fixed in H. rewrite append_cons. cbn. by rewrite H.
Qed.

Lemma TrimRight_app (a b cutset : string) :
  b ≠ "" → TrimRight b cutset = b → TrimRight (a +:+ b) cutset = a +:+ b.
Proof.
  intros Hb H. induction a as [|c a IH]; [done|].
  rewrite append_cons, TrimRight_cons, IH.
  destruct (a +:+ b) eqn:E; [|done].
  destruct a; [by cbn in E|by rewrite append_cons in E].
Qed.

Lemma append_assoc (a b c : string) : (a +:+ b) +:+ c = a +:+ (b +:+ c).
Proof. induction a as [|x a IH]; [done|]. by rewrite !append_cons, IH. Qed.

Lemma append_nil_r (a : string) : a +:+ "" = a.
Proof. induction a as [|x a IH]; [done|]. by rewrite append_cons, IH. Qed.

(** Two trimmed, non-empty strings around any middle make a trimmed string. *)
Lemma Trim_sandwich (a m b cutset : string) :
  a ≠ "" → b ≠ "" →
  TrimLeft a cutset = a → TrimRight b cutset = b →
  Trim (a +:+ m +:+ b) cutset = a +:+ m +:+ b.
Proof.
  intros Ha Hb Hla Hrb. unfold Trim.
  rewrite TrimLeft_app by done.
  rewrite <- append_assoc. rewrite TrimRight_app by done. done.
Qed.

Lemma TrimRight_app_cut (s cutset : string) (c : ascii) :
  inCutset c cutset = true →
  TrimRight (s +:+ String c "") cutset = TrimRight s cutset.
Proof.
  intros Hc. induction s as [|x s IH].
  - change ("" +:+ String c "") with (String c ""). rewrite TrimRight_cons.
    cbn. by rewrite Hc.
  - by rewrite append_cons, !TrimRight_cons, IH.
Qed.

(** ** Induction over the calls that build a router *)

Lemma foldl_bind_preserve_in {A S : Type} (f : A → S → option S) (P : S → Prop)
    (l : list A) :
  (∀ a s s', a ∈ l → P s → f a s = Some s' → P s') →
  ∀ s s', P s → foldl (fun acc a => s ← acc; f a s) (Some s) l = Some s' → P s'.
Proof.
  induction l as [|a l IH]; intros Hf s s' Hs; cbn.
  - by intros [= <-].
  - destruct (f a s) as [s1|] eqn:E; [|by rewrite foldl_bind_None].
    apply IH.
    + intros a' t t' Ha'. apply Hf. by right.
    + eapply Hf; [by left|done|done].
Qed.

Ltac single_index m :=
  right; right; split; [done|]; eexists _, _, _, [m];
  split; [intros ? ->%list_elem_of_singleton; apply method_range_lt; cbv; lia
         |done].

(** A call is [Use], the catch-all registration, or [addRoute] on one path
    for method indices between [mGet] and [mPatch]. *)
Lemma apply_call_shape (c : call) :
  (∃ mws, c = UseCall mws)
  ∨ (call_use c = []
     ∧ ∃ fn mws, ∀ r, apply_call c r = addCatchAll fn mws r)
  ∨ (call_use c = []
     ∧ ∃ path fn mws l,
         (∀ i, i ∈ l → i ∈ method_range)
         ∧ ∀ r, apply_call c r
                = foldl (fun acc i => r ← acc; addRoute i path fn mws r)
                        (Some r) l).
Proof.
  destruct c as [v path h mws|g v path h mws|mws]; [| |by left; eexists].
  - destruct v;
      [single_index mGet|single_index mPost|single_index mPut
      |single_index mDelete|single_index mPatch|].
    cbn. unfold ANY. destruct (String.eqb path "*") eqn:E.
    + right; left. split; [done|]. by exists h, mws.
    + right; right. split; [done|]. by exists path, h, mws, method_range.
  - destruct v;
      [single_index mGet|single_index mPost|single_index mPut
      |single_index mDelete|single_index mPatch|].
    cbn. unfold Group_ANY. destruct (String.eqb path "*") eqn:E.
    + right; left. split; [done|]. by exists h, (Group_mws g ++ mws).
    + right; right. split; [done|].
      by exists (Group_prefix g +:+ "/" +:+ Trim path "/"), h,
                (Group_mws g ++ mws), method_range.
Qed.

(** What is kept by [addRoute] on the five method indices, by [addCatchAll]
    and by [Use], and holds of [New], holds of every router the API builds. *)
Lemma reachable_ops_ind (P : Router → Prop) :
  P New →
  (∀ r r' i path fn mws,
     Router_inv r → P r → i ∈ method_range →
     addRoute i path fn mws r = Some r' → P r') →
  (∀ r r' fn mws,
     Router_inv r → P r → addCatchAll fn mws r = Some r' → P r') →
  (∀ r mws, Router_inv r → P r → P (Use mws r)) →
  ∀ r, reachable r → P r.
Proof.
  intros HNew Hadd Hcatch HUse r Hr.
  cut (Router_inv r ∧ P r); [by intros []|].
  induction Hr as [|c r r' Hr [Hinv HP] E]; [split; [apply Router_inv_New|done]|].
  destruct (apply_call_shape c)
    as [[mws ->]|[(_ & fn & mws & Hc)|(_ & path & fn & mws & l & Hl & Hc)]].
  - cbn in E. injection E as <-. split; [by apply Use_Router_inv|by apply HUse].
  - rewrite Hc in E. split; [|by eapply Hcatch].
    destruct (addCatchAll_Router_inv fn mws r Hinv) as (r'' & E' & Hinv').
    congruence.
  - rewrite Hc in E. revert E.
    apply (foldl_bind_preserve_in (fun i r => addRoute i path fn mws r)
             (fun r => Router_inv r ∧ P r)); [|done].
    intros i s s' Hi [Hs HPs] E. split; [|by eapply Hadd; eauto].
    destruct (addRoute_Router_inv i path fn mws s Hs) as (s'' & E' & Hinv').
    { apply Hl, method_range_lt in Hi. lia. }
    congruence.
Qed.

(** ** Registration of one route *)

Lemma classify_Static (path : string) :
  (classify path).1 = Static →
  (classify path).2 = Trim path "/"
  ∧ HasSuffix (Trim path "/") "*" = false
  ∧ Contains (Trim path "/") ":" = false.
Proof.
  unfold classify. cbn [fst snd].
  destruct (HasSuffix (Trim path "/") "*"); [done|].
  by destruct (Contains (Trim path "/") ":").
Qed.

Lemma method_name_std (i : nat) : i ∈ method_range → method_name i ∈ std_methods.
Proof.
  intros Hi. apply method_range_lt in Hi. unfold mAny in Hi.
  unfold method_name, std_methods.
  do 5 (destruct i as [|i]; [cbn; set_solver|]). lia.
Qed.

Lemma getHandler_method_name (rt : route) (i : nat) :
  i ∈ method_range → getHandler rt (method_name i) = slot rt i.
Proof.
  intros Hi. apply method_range_lt in Hi. unfold mAny in Hi.
  do 5 (destruct i as [|i]; [reflexivity|]). lia.
Qed.

(** What one [addRoute] does to a router that satisfies the invariant. *)
Lemma addRoute_effect (i : nat) (path : string) (fn : Handler)
    (mws : list Middleware) (r : Router) (part : partition) (key : string) :
  Router_inv r → i ∈ method_range → classify path = (part, key) →
  ∃ r' rt',
    addRoute i path fn mws r = Some r'
    ∧ Router_inv r'
    ∧ routes_of part r' !! key = Some rt'
    ∧ slot rt' i = Some (mkRouteHandler (composeHandler fn (globalMWs r ++ mws)))
    ∧ (∀ j, j ≠ i →
            slot rt' j = slot (default zero_route (routes_of part r !! key)) j)
    ∧ (∀ p k, (p, k) ≠ (part, key) → routes_of p r' !! k = routes_of p r !! k)
    ∧ catchAll r' = catchAll r
    ∧ globalMWs r' = globalMWs r.
Proof.
  intros Hinv Hi Ec.
  destruct (addRoute_Router_inv i path fn mws r Hinv) as (r' & E & Hinv').
  { apply method_range_lt in Hi. lia. }
  pose proof (addRoute_inv_Some _ _ _ _ _ _ part key Ec E) as Hlt.
  exists r'. rewrite E.
  rewrite (addRoute_Some _ _ _ _ _ part key Ec) in E by done. injection E as <-.
  eexists. split; [done|]. split; [done|].
  rewrite routes_of_compileStatic, routes_of_set_routes, decide_True by done.
  rewrite lookup_insert_eq. split; [done|]. split; [|split; [|split]].
  - unfold slot. cbn [handlers]. by rewrite list_lookup_insert_eq.
  - intros j Hj. unfold slot. cbn [handlers]. by rewrite list_lookup_insert_ne.
  - intros p k Hne. rewrite routes_of_compileStatic, routes_of_set_routes.
    case_decide as Ep; [|done]. subst p.
    rewrite lookup_insert_ne; [done|]. intros Ek. apply Hne. by rewrite Ek.
  - by rewrite catchAll_compileStatic, catchAll_set_routes,
         globalMWs_compileStatic, globalMWs_set_routes.
Qed.

(** A request with the method of the index, for the path of a static route
    just registered, is served by the handler composed at registration. *)
Lemma addRoute_then_serve (i : nat) (path : string) (fn : Handler)
    (mws : list Middleware) (r : Router) :
  Router_inv r → i ∈ method_range → (classify path).1 = Static →
  ∃ r', addRoute i path fn mws r = Some r'
        ∧ ∀ req w,
            Method req = method_name i →
            normalized req = Trim path "/" →
            ServeHTTP r' req w = composeHandler fn (globalMWs r ++ mws) req w.
Proof.
  intros Hinv Hi Hs.
  destruct (classify_Static path Hs) as (Hk & _ & _).
  destruct (classify path) as [part key] eqn:Ec. cbn [fst snd] in *. subst part key.
  destruct (addRoute_effect i path fn mws r Static (Trim path "/") Hinv Hi Ec)
    as (r' & rt' & E & _ & Hrt & Hslot & _).
  exists r'. split; [done|]. intros req w Hm Hn.
  rewrite ServeHTTP_dispatch.
  assert (Hopt : String.eqb (Method req) MethodOptions = false).
  { apply String.eqb_neq, std_method_not_Options. rewrite Hm.
    by apply method_name_std. }
  rewrite Hopt. unfold static_match. rewrite Hn. cbn [routes_of] in Hrt.
  rewrite Hrt. cbn. by rewrite Hm, getHandler_method_name, Hslot.
Qed.

(** X1. [addRoute] for a path whose route does not exist yet creates the
    route: the slot of the method holds the composed handler, every other
    slot is nil, the flags are those of the path, and nothing else in the
    router changes. *)
Theorem addRoute_creates_route (r : Router) (method : nat) (path : string)
    (fn : Handler) (mws : list Middleware) :
  method ∈ method_range →
  routes_of (classify path).1 r !! (classify path).2 = None →
  ∃ r' rt',
    addRoute method path fn mws r = Some r'
    ∧ routes_of (classify path).1 r' !! (classify path).2 = Some rt'
    ∧ slot rt' method
      = Some (mkRouteHandler (composeHandler fn (globalMWs r ++ mws)))
    ∧ (∀ m, m ≠ method → slot rt' m = None)
    ∧ isParam rt' = Contains (Trim path "/") ":"
    ∧ isWild rt' = HasSuffix (Trim path "/") "*"
    ∧ (∀ p k, (p, k) ≠ classify path →
              routes_of p r' !! k = routes_of p r !! k)
    ∧ catchAll r' = catchAll r
    ∧ globalMWs r' = globalMWs r.
Proof.
  intros Hm Hnone. apply method_range_lt in Hm. unfold mAny in Hm.
  destruct (classify path) as [part key] eqn:Ec. cbn [fst snd] in *.
  pose proof (addRoute_Some method path fn mws r part key Ec) as E.
  rewrite Hnone in E. rewrite E by (cbn; lia). clear E.
  eexists _, _. split; [done|].
  rewrite routes_of_compileStatic, routes_of_set_routes, decide_True by done.
  rewrite lookup_insert_eq. split; [done|]. split; [|split; [|split; [|split; [|split]]]].
  - unfold slot. cbn [handlers]. by rewrite list_lookup_insert_eq by (cbn; lia).
  - intros m Hne. unfold slot. cbn [handlers].
    rewrite list_lookup_insert_ne by done.
    cbn. by do 6 (destruct m as [|m]; [done|]).
  - done.
  - done.
  - intros p k Hne. rewrite routes_of_compileStatic, routes_of_set_routes.
    case_decide as Ep; [|done]. subst p.
    rewrite lookup_insert_ne; [done|]. intros Ek. apply Hne. by rewrite Ek.
  - by rewrite catchAll_compileStatic, catchAll_set_routes,
         globalMWs_compileStatic, globalMWs_set_routes.
Qed.

Lemma addRoute_creates_route_witness :
  (mPost ∈ method_range
   ∧ routes_of (classify "/submit").1 api_router !! (classify "/submit").2 = None)
  ∧ ∃ r' rt',
      addRoute mPost "/submit" (reply "Data submitted") [] api_router = Some r'
      ∧ routes_of (classify "/submit").1 r' !! (classify "/submit").2 = Some rt'
      ∧ slot rt' mPost
        = Some (mkRouteHandler
                  (composeHandler (reply "Data submitted")
                     (globalMWs api_router ++ [])))
      ∧ (∀ m, m ≠ mPost → slot rt' m = None)
      ∧ isParam rt' = Contains (Trim "/submit" "/") ":"
      ∧ isWild rt' = HasSuffix (Trim "/submit" "/") "*"
      ∧ (∀ p k, (p, k) ≠ classify "/submit" →
                routes_of p r' !! k = routes_of p api_router !! k)
      ∧ catchAll r' = catchAll api_router
      ∧ globalMWs r' = globalMWs api_router.
Proof.
  assert (H1 : mPost ∈ method_range).
  { apply method_range_lt. unfold mPost, mAny. lia. }
  assert (H2 : routes_of (classify "/submit").1 api_router !! (classify "/submit").2
               = None) by (vm_compute; reflexivity).
  split; [exact (conj H1 H2)|].
  exact (addRoute_creates_route api_router mPost "/submit" (reply "Data submitted")
           [] H1 H2).
Defined.

(** X2. Registering a static path for one of the five methods and then
    serving a request with that method, whose path has the same normalized
    form, runs the global middlewares of the time of registration, the
    middlewares of the registration and the handler. *)
Theorem register_then_serve (r : Router) (i : nat) (path : string)
    (fn : Handler) (mws : list Middleware) :
  reachable r → i ∈ method_range → (classify path).1 = Static →
  ∃ r', addRoute i path fn mws r = Some r'
        ∧ ∀ req w,
            Method req = method_name i →
            normalized req = Trim path "/" →
            ServeHTTP r' req w = composeHandler fn (globalMWs r ++ mws) req w.
Proof.
  intros Hr. apply addRoute_then_serve. by apply reachable_inv.
Qed.

Lemma register_then_serve_witness :
  (reachable api_router
   ∧ mPost ∈ method_range
   ∧ (classify "/submit").1 = Static)
  ∧ ∃ r', addRoute mPost "/submit" (reply "Data submitted") [mark "M"] api_router
          = Some r'
          ∧ ∀ req w,
              Method req = method_name mPost →
              normalized req = Trim "/submit" "/" →
              ServeHTTP r' req w
              = composeHandler (reply "Data submitted")
                  (globalMWs api_router ++ [mark "M"]) req w.
Proof.
  assert (H2 : mPost ∈ method_range).
  { apply method_range_lt. unfold mPost, mAny. lia. }
  assert (H3 : (classify "/submit").1 = Static) by (vm_compute; reflexivity).
  split; [exact (conj reachable_api_router (conj H2 H3))|].
  exact (register_then_serve api_router mPost "/submit" (reply "Data submitted")
           [mark "M"] reachable_api_router H2 H3).
Defined.

Example register_then_serve_replies :
  (fun r => Body (ServeHTTP r (request "POST" "//submit/") NewRecorder))
    <$> POST "/submit" (reply "Data submitted") [mark "M"] api_router
  = Some "AMData submitted".
Proof. vm_compute. reflexivity. Qed.


(** ** [ANY] on a path *)

(** A loop in the [option] monad, with an invariant that knows which
    elements are done. *)
Lemma foldl_bind_steps {A S : Type} (f : A → S → option S)
    (Q : list A → S → Prop) (l : list A) :
  (∀ done a s, a ∈ l → Q done s → ∃ s', f a s = Some s' ∧ Q (done ++ [a]) s') →
  ∀ s, Q [] s →
       ∃ s', foldl (fun acc a => s ← acc; f a s) (Some s) l = Some s' ∧ Q l s'.
Proof.
  intros Hf.
  cut (∀ rest done s, (∀ a, a ∈ rest → a ∈ l) → Q done s →
         ∃ s', foldl (fun acc a => s ← acc; f a s) (Some s) rest = Some s'
               ∧ Q (done ++ rest) s').
  { intros H s Hs. by apply (H l [] s). }
  induction rest as [|a rest IH]; intros done s Hin Hs.
  - exists s. by rewrite app_nil_r.
  - destruct (Hf done a s) as (s1 & E & Hs1); [apply Hin; by left|done|].
    cbn. rewrite E.
    destruct (IH (done ++ [a]) s1) as (s' & E' & Hs'); [|done|].
    { intros a' Ha'. apply Hin. by right. }
    exists s'. split; [done|]. by rewrite <- app_assoc in Hs'.
Qed.

(** X4. [ANY] with a path other than "*", on a router built by the API,
    leaves one route under the key of the path whose five method slots hold
    the same composed handler; the reserved slot of that route, every other
    route, the catch-all route and the global middlewares are unchanged.
    If the path is static, a request with any of the five methods for it is
    served by that handler. *)
Theorem ANY_registers_five (r : Router) (path : string) (fn : Handler)
    (mws : list Middleware) :
  reachable r → path ≠ "*" →
  let h := mkRouteHandler (composeHandler fn (globalMWs r ++ mws)) in
  ∃ r' rt',
    ANY path fn mws r = Some r'
    ∧ routes_of (classify path).1 r' !! (classify path).2 = Some rt'
    ∧ (∀ i, i ∈ method_range → slot rt' i = Some h)
    ∧ slot rt' mAny
      = slot (default zero_route
                (routes_of (classify path).1 r !! (classify path).2)) mAny
    ∧ (∀ p k, (p, k) ≠ classify path →
              routes_of p r' !! k = routes_of p r !! k)
    ∧ catchAll r' = catchAll r
    ∧ globalMWs r' = globalMWs r
    ∧ ((classify path).1 = Static →
       ∀ req w, Method req ∈ std_methods →
                normalized req = Trim path "/" →
                ServeHTTP r' req w = handler h req w).
Proof.
  intros Hr Hpath h. pose proof (reachable_inv r Hr) as Hinv.
  unfold ANY. apply String.eqb_neq in Hpath. rewrite Hpath.
  pose proof (classify_Static path) as HStatic.
  destruct (classify path) as [part key] eqn:Ec. cbn [fst snd] in *.
  set (old := default zero_route (routes_of part r !! key)).
  destruct (foldl_bind_steps (fun i r => addRoute i path fn mws r)
    (fun done s =>
       Router_inv s
       ∧ globalMWs s = globalMWs r
       ∧ catchAll s = catchAll r
       ∧ (∀ p k, (p, k) ≠ (part, key) →
                 routes_of p s !! k = routes_of p r !! k)
       ∧ (∀ j, slot (default zero_route (routes_of part s !! key)) j
               = if decide (j ∈ done) then Some h else slot old j)
       ∧ (done ≠ [] → is_Some (routes_of part s !! key)))
    method_range) with (s := r) as (r' & E & Hr').
  - intros done i s Hi (Hsinv & Hg & Hc & Hothers & Hslots & _).
    destruct (addRoute_effect i path fn mws s part key Hsinv Hi Ec)
      as (s' & rt' & Es & Hinv' & Hrt' & Hsl & Hsl' & Hoth & Hc' & Hg').
    exists s'. split; [done|].
    split; [done|]. split; [congruence|]. split; [congruence|].
    split; [|split].
    + intros p k Hne. rewrite Hoth by done. by apply Hothers.
    + intros j. rewrite Hrt'. cbn [default from_option id].
      destruct (decide (j = i)) as [->|Hji].
      * rewrite Hsl, Hg. rewrite decide_True; [done|].
        apply elem_of_app. right. by apply list_elem_of_singleton.
      * rewrite Hsl' by done. rewrite Hslots.
        destruct (decide (j ∈ done)) as [Hjd|Hjd].
        -- rewrite decide_True; [done|]. apply elem_of_app. by left.
        -- rewrite decide_False; [done|].
           rewrite elem_of_app, list_elem_of_singleton. tauto.
    + intros _. rewrite Hrt'. by eexists.
  - split; [done|]. split; [done|]. split; [done|]. split; [done|].
    split; [|done]. intros j. by rewrite decide_False by apply not_elem_of_nil.
  - destruct Hr' as (Hinv' & Hg & Hc & Hothers & Hslots & Hsome).
    destruct Hsome as [rt' Hrt']; [done|].
    rewrite Hrt' in Hslots. cbn [default from_option id] in Hslots.
    assert (Hfive : ∀ i, i ∈ method_range → slot rt' i = Some h).
    { intros i Hi. by rewrite Hslots, decide_True. }
    exists r', rt'. split; [done|]. split; [done|]. split; [done|].
    split.
    { rewrite Hslots, decide_False; [done|].
      intros H%method_range_lt. lia. }
    split; [done|]. split; [done|]. split; [done|].
    intros Hs req w Hm Hn. destruct (HStatic Hs) as (-> & _). subst part.
    rewrite ServeHTTP_dispatch.
    assert (Hopt : String.eqb (Method req) MethodOptions = false).
    { by apply String.eqb_neq, std_method_not_Options. }
    rewrite Hopt. unfold static_match. rewrite Hn. cbn [routes_of] in Hrt'.
    rewrite Hrt'. cbn.
    destruct (getHandler_slot rt' (Method req) Hm) as (i & Hi & ->).
    by rewrite Hfive.
Qed.

Lemma ANY_registers_five_witness :
  (reachable two_method_router ∧ "/api" ≠ "*")
  ∧ ∃ r' rt',
      ANY "/api" (reply "any") [mark "M"] two_method_router = Some r'
      ∧ routes_of (classify "/api").1 r' !! (classify "/api").2 = Some rt'
      ∧ (∀ i, i ∈ method_range →
              slot rt' i
              = Some (mkRouteHandler
                        (composeHandler (reply "any")
                           (globalMWs two_method_router ++ [mark "M"])))).
Proof.
  assert (H1 : reachable two_method_router).
  { apply (run_reachable two_method_calls New); [exact reachable_New|].
    vm_compute. reflexivity. }
  assert (H2 : "/api" ≠ "*") by discriminate.
  split; [exact (conj H1 H2)|].
  destruct (ANY_registers_five two_method_router "/api" (reply "any") [mark "M"]
              H1 H2) as (r' & rt' & E & Hrt & Hfive & _).
  exact (ex_intro _ r' (ex_intro _ rt' (conj E (conj Hrt Hfive)))).
Defined.

Example ANY_replies :
  (fun r => (fun m => Body (ServeHTTP r (request m "/api/") NewRecorder))
              <$> std_methods)
    <$> ANY "/api" (reply "any") [mark "M"] two_method_router
  = Some (replicate 5 "Many").
Proof. vm_compute. reflexivity. Qed.

(** ** Invariants of the route table *)

Lemma classify_key_shape (path : string) :
  match (classify path).1 with
  | Static =>
      Trim (classify path).2 "/" = (classify path).2
      ∧ Contains (classify path).2 ":" = false
      ∧ HasSuffix (classify path).2 "*" = false
  | Params =>
      Trim (classify path).2 "/" = (classify path).2
      ∧ Contains (classify path).2 ":" = true
      ∧ HasSuffix (classify path).2 "*" = false
  | Wildcards =>
      Trim ((classify path).2 +:+ "*") "/" = (classify path).2 +:+ "*"
  end.
Proof.
  unfold classify. cbn [fst snd].
  destruct (HasSuffix (Trim path "/") "*") eqn:Hw.
  - rewrite <- (HasSuffix_star _ Hw). apply Trim_idem.
  - destruct (Contains (Trim path "/") ":") eqn:Hp;
      (split; [apply Trim_idem|done]).
Qed.

Lemma keys_shape (r : Router) :
  reachable r →
  ∀ p k rt,
    routes_of p r !! k = Some rt →
    match p with
    | Static =>
        Trim k "/" = k ∧ Contains k ":" = false ∧ HasSuffix k "*" = false
    | Params =>
        Trim k "/" = k ∧ Contains k ":" = true ∧ HasSuffix k "*" = false
    | Wildcards => Trim (k +:+ "*") "/" = k +:+ "*"
    end.
Proof.
  revert r. refine (reachable_ops_ind _ _ _ _ _).
  - intros p k rt. unfold New. rewrite routes_of_compileStatic.
    destruct p; cbn; by rewrite lookup_empty.
  - intros r r' i path fn mws Hinv IH Hi E p k rt.
    destruct (classify path) as [part key] eqn:Ec.
    pose proof (classify_key_shape path) as Hshape. rewrite Ec in Hshape.
    cbn [fst snd] in Hshape.
    pose proof (addRoute_inv_Some _ _ _ _ _ _ part key Ec E) as Hlt.
    rewrite (addRoute_Some _ _ _ _ _ part key Ec) in E by done. injection E as <-.
    rewrite routes_of_compileStatic, routes_of_set_routes.
    case_decide as Ep; [subst p|by apply IH].
    rewrite lookup_insert. case_decide as Ek; [subst k|by apply IH].
    by intros _.
  - intros r r' fn mws Hinv IH E p k rt.
    unfold addCatchAll in E. apply bind_Some in E as (hs & _ & E).
    injection E as <-. intros Hrt. eapply IH. by destruct p.
  - intros r mws Hinv IH p k rt. rewrite routes_of_Use, lookup_fmap.
    destruct (routes_of p r !! k) as [rt0|] eqn:E; [|done]. intros _.
    by eapply IH.
Qed.

(** X5. In a router built by the API the keys have the shape of their
    partition: a static key is trimmed, has no ":" and no final "*"; a
    parameterized key is trimmed, has a ":" and no final "*"; a wildcard key
    followed by "*" is a trimmed path. *)
Theorem keys_by_partition (r : Router) (p : partition) (k : string) (rt : route) :
  reachable r →
  routes_of p r !! k = Some rt →
  match p with
  | Static =>
      Trim k "/" = k ∧ Contains k ":" = false ∧ HasSuffix k "*" = false
  | Params =>
      Trim k "/" = k ∧ Contains k ":" = true ∧ HasSuffix k "*" = false
  | Wildcards => Trim (k +:+ "*") "/" = k +:+ "*"
  end.
Proof. intros Hr. by apply keys_shape. Qed.

Lemma keys_by_partition_witness :
  (reachable demo_router
   ∧ routes_of Wildcards demo_router !! "files/"
     = Some {| handlers := [Some (mkRouteHandler (mark "A" (reply "File: ")));
                            None; None; None; None; None];
               isParam := false; isWild := true |})
  ∧ Trim ("files/" +:+ "*") "/" = "files/" +:+ "*".
Proof.
  assert (H : routes_of Wildcards demo_router !! "files/"
              = Some {| handlers := [Some (mkRouteHandler (mark "A" (reply "File: ")));
                                     None; None; None; None; None];
                        isParam := false; isWild := true |})
    by (vm_compute; reflexivity).
  split; [exact (conj reachable_demo_router H)|].
  exact (keys_by_partition demo_router Wildcards "files/" _ reachable_demo_router H).
Defined.

(** X6. In a router built by the API no static handler is out of reach: a
    request whose path is the key of a static route, with a method the route
    has a handler for, is served by that handler. *)
Theorem static_routes_live (r : Router) (k : string) (rt : route)
    (h : routeHandler) (req : Request) (w : ResponseWriter) :
  reachable r →
  static r !! k = Some rt →
  getHandler rt (Method req) = Some h →
  URL_Path req = k →
  ServeHTTP r req w = handler h req w.
Proof.
  intros Hr Hrt Hh Hp.
  destruct (keys_shape r Hr Static k rt Hrt) as (Hk & _).
  rewrite ServeHTTP_dispatch.
  assert (Hopt : String.eqb (Method req) MethodOptions = false).
  { apply String.eqb_neq. intros E. rewrite E in Hh.
    by rewrite getHandler_Options in Hh. }
  rewrite Hopt. unfold static_match, normalized. rewrite Hp, Hk, Hrt. cbn.
  by rewrite Hh.
Qed.

Lemma static_routes_live_witness :
  let req := request "GET" "api" in
  let h := mkRouteHandler (mark "A" (mark "C" (reply "Welcome"))) in
  let rt := {| handlers := [Some h; None; None; None; None; None];
               isParam := false; isWild := false |} in
  (reachable demo_router
   ∧ static demo_router !! "api" = Some rt
   ∧ getHandler rt (Method req) = Some h
   ∧ URL_Path req = "api")
  ∧ ServeHTTP demo_router req NewRecorder = handler h req NewRecorder.
Proof.
  intros req h rt.
  assert (H2 : static demo_router !! "api" = Some rt) by (vm_compute; reflexivity).
  assert (H3 : getHandler rt (Method req) = Some h) by reflexivity.
  assert (H4 : URL_Path req = "api") by reflexivity.
  split; [exact (conj reachable_demo_router (conj H2 (conj H3 H4)))|].
  exact (static_routes_live demo_router "api" rt h req NewRecorder
           reachable_demo_router H2 H3 H4).
Defined.

Lemma catchAll_flags (r : Router) :
  reachable r →
  ∀ ca, catchAll r = Some ca → isParam ca = false ∧ isWild ca = false.
Proof.
  revert r. refine (reachable_ops_ind _ _ _ _ _).
  - intros ca. unfold New. by rewrite catchAll_compileStatic.
  - intros r r' i path fn mws Hinv IH Hi E ca.
    destruct (classify path) as [part key] eqn:Ec.
    destruct (addRoute_effect i path fn mws r part key Hinv Hi Ec)
      as (r'' & rt' & E' & _ & _ & _ & _ & _ & Hc & _).
    assert (r'' = r') as -> by congruence. rewrite Hc. apply IH.
  - intros r r' fn mws Hinv IH E ca.
    rewrite addCatchAll_Some in E.
    + injection E as <-. cbn. intros [= <-]. cbn.
      destruct (catchAll r) as [ca0|] eqn:Eca; cbn; [by apply IH|done].
    + destruct (catchAll r) as [ca0|] eqn:Eca; cbn; [|done].
      by eapply inv_catchAll_wf.
  - intros r mws Hinv IH ca. rewrite catchAll_Use.
    destruct (catchAll r) as [ca0|] eqn:E; [|done]. intros [= <-]. cbn.
    by apply IH.
Qed.

(** X7. In a router built by the API the flags of a route say which
    partition it is in: a static route has neither flag, a parameterized
    route has [isParam] and not [isWild], a wildcard route has [isWild], and
    [isParam] when its key has a ":"; the catch-all route has neither flag. *)
Theorem flags_by_partition (r : Router) :
  reachable r →
  (∀ p k rt,
     routes_of p r !! k = Some rt →
     isWild rt = match p with Wildcards => true | _ => false end
     ∧ isParam rt = match p with
                    | Static => false
                    | Params => true
                    | Wildcards => Contains k ":"
                    end)
  ∧ (∀ ca, catchAll r = Some ca → isParam ca = false ∧ isWild ca = false).
Proof.
  intros Hr. split; [|by apply catchAll_flags].
  intros p k rt Hrt. exact (inv_flags r (reachable_inv r Hr) p k rt Hrt).
Qed.

Lemma flags_by_partition_witness :
  reachable demo_router
  ∧ ∀ ca, catchAll demo_router = Some ca → isParam ca = false ∧ isWild ca = false.
Proof.
  split; [exact reachable_demo_router|].
  exact (proj2 (flags_by_partition demo_router reachable_demo_router)).
Defined.

(** X8. The reserved slot [mAny] is never written: in a router built by the
    API it is nil in every route of every partition and in the catch-all
    route. *)
Theorem any_slot_unused (r : Router) :
  reachable r →
  (∀ p k rt, routes_of p r !! k = Some rt → slot rt mAny = None)
  ∧ (∀ ca, catchAll r = Some ca → slot ca mAny = None).
Proof.
  revert r. refine (reachable_ops_ind _ _ _ _ _).
  - unfold New. split.
    + intros p k rt. rewrite routes_of_compileStatic.
      destruct p; cbn; by rewrite lookup_empty.
    + intros ca. by rewrite catchAll_compileStatic.
  - intros r r' i path fn mws Hinv [IH1 IH2] Hi E.
    destruct (classify path) as [part key] eqn:Ec.
    destruct (addRoute_effect i path fn mws r part key Hinv Hi Ec)
      as (r'' & rt' & E' & _ & Hrt' & _ & Hsl & Hoth & Hc & _).
    assert (r'' = r') as -> by congruence. split.
    + intros p k rt Hrt.
      destruct (decide ((p, k) = (part, key))) as [[= -> ->]|Hne].
      * assert (rt = rt') as -> by congruence.
        rewrite Hsl by (apply method_range_lt in Hi; lia).
        destruct (routes_of part r !! key) as [rt0|] eqn:E0; cbn; [|done].
        by eapply IH1.
      * rewrite Hoth in Hrt by done. by eapply IH1.
    + intros ca. rewrite Hc. apply IH2.
  - intros r r' fn mws Hinv [IH1 IH2] E.
    rewrite addCatchAll_Some in E.
    + injection E as <-. split.
      * intros p k rt Hrt. apply (IH1 p k rt). by destruct p.
      * cbn. intros ca [= <-]. unfold slot at 1. cbn.
        destruct (catchAll r) as [ca0|] eqn:Eca; cbn; [by apply IH2|done].
    + destruct (catchAll r) as [ca0|] eqn:Eca; cbn; [|done].
      by eapply inv_catchAll_wf.
  - intros r mws Hinv [IH1 IH2]. split.
    + intros p k rt. rewrite routes_of_Use, lookup_fmap.
      destruct (routes_of p r !! k) as [rt0|] eqn:E; [|done]. intros [= <-].
      rewrite slot_recomposeRoute. by rewrite (IH1 p k rt0 E).
    + intros ca. rewrite catchAll_Use.
      destruct (catchAll r) as [ca0|] eqn:E; [|done]. intros [= <-].
      rewrite slot_recomposeRoute. by rewrite (IH2 ca0).
Qed.

Lemma any_slot_unused_witness :
  reachable demo_router
  ∧ ∀ ca, catchAll demo_router = Some ca → slot ca mAny = None.
Proof.
  split; [exact reachable_demo_router|].
  exact (proj2 (any_slot_unused demo_router reachable_demo_router)).
Defined.

(** ** Global middlewares *)

Lemma addCatchAll_globalMWs (fn : Handler) (mws : list Middleware) (r r' : Router) :
  addCatchAll fn mws r = Some r' → globalMWs r' = globalMWs r.
Proof.
  unfold addCatchAll. intros E. apply bind_Some in E as (hs & _ & E).
  by injection E as <-.
Qed.

Lemma addRoute_globalMWs (i : nat) (path : string) (fn : Handler)
    (mws : list Middleware) (r r' : Router) :
  addRoute i path fn mws r = Some r' → globalMWs r' = globalMWs r.
Proof.
  intros E. destruct (classify path) as [part key] eqn:Ec.
  pose proof (addRoute_inv_Some _ _ _ _ _ _ part key Ec E) as Hlt.
  rewrite (addRoute_Some _ _ _ _ _ part key Ec) in E by done. injection E as <-.
  by rewrite globalMWs_compileStatic, globalMWs_set_routes.
Qed.

Lemma apply_call_globalMWs (c : call) (r r' : Router) :
  apply_call c r = Some r' → globalMWs r' = globalMWs r ++ call_use c.
Proof.
  intros E.
  destruct (apply_call_shape c)
    as [[mws ->]|[(Hu & fn & mws & Hc)|(Hu & path & fn & mws & l & _ & Hc)]].
  - cbn in *. injection E as <-. apply globalMWs_Use.
  - rewrite Hu, app_nil_r. rewrite Hc in E. by eapply addCatchAll_globalMWs.
  - rewrite Hu, app_nil_r. rewrite Hc in E. revert E.
    apply (foldl_bind_preserve (fun i r => addRoute i path fn mws r)
             (fun s => globalMWs s = globalMWs r)); [|done].
    intros i s s' Hs Es. rewrite <- Hs. by eapply addRoute_globalMWs.
Qed.

(** X9. The list of global middlewares is changed by [Use] only, which
    appends: after a history of calls it is the list before followed by the
    arguments of the [Use] calls, in their order. *)
Theorem globalMWs_after_run (cs : list call) (r0 r : Router) :
  run cs r0 = Some r →
  globalMWs r = globalMWs r0 ++ use_args cs.
Proof.
  revert r0. induction cs as [|c cs IH]; intros r0; cbn.
  - intros [= <-]. unfold use_args. cbn. by rewrite app_nil_r.
  - destruct (apply_call c r0) as [r1|] eqn:E; [|done]. cbn. intros Hrun.
    rewrite (IH r1 Hrun), (apply_call_globalMWs c r0 r1 E).
    unfold use_args. cbn. by rewrite app_assoc.
Qed.

Lemma globalMWs_after_run_witness :
  run use_twice_calls New = Some (default New (run use_twice_calls New))
  ∧ globalMWs (default New (run use_twice_calls New))
    = globalMWs New ++ use_args use_twice_calls.
Proof.
  assert (H : run use_twice_calls New
              = Some (default New (run use_twice_calls New)))
    by (vm_compute; reflexivity).
  split; [exact H|].
  exact (globalMWs_after_run use_twice_calls New _ H).
Defined.

(** X10. [Use] neither adds nor removes a route or a handler: every
    partition keeps its keys, every route its flags and its nil slots, and
    every slot that holds a handler holds that handler wrapped with the
    whole list of global middlewares, the new ones last; the catch-all route
    likewise. *)
Theorem Use_effect (mws : list Middleware) (r : Router) :
  let wrap := fun h : routeHandler =>
    mkRouteHandler (composeHandler (handler h) (globalMWs r ++ mws)) in
  globalMWs (Use mws r) = globalMWs r ++ mws
  ∧ (∀ p k, routes_of p r !! k = None → routes_of p (Use mws r) !! k = None)
  ∧ (∀ p k rt,
       routes_of p r !! k = Some rt →
       ∃ rt', routes_of p (Use mws r) !! k = Some rt'
              ∧ isParam rt' = isParam rt ∧ isWild rt' = isWild rt
              ∧ ∀ i, slot rt' i = wrap <$> slot rt i)
  ∧ (catchAll r = None → catchAll (Use mws r) = None)
  ∧ (∀ ca,
       catchAll r = Some ca →
       ∃ ca', catchAll (Use mws r) = Some ca'
              ∧ ∀ i, slot ca' i = wrap <$> slot ca i).
Proof.
  intros wrap. split; [apply globalMWs_Use|]. split; [|split; [|split]].
  - intros p k E. by rewrite routes_of_Use, lookup_fmap, E.
  - intros p k rt E. rewrite routes_of_Use, lookup_fmap, E. cbn.
    eexists. split; [done|]. split; [done|]. split; [done|].
    intros i. apply slot_recomposeRoute.
  - intros E. by rewrite catchAll_Use, E.
  - intros ca E. rewrite catchAll_Use, E. cbn.
    eexists. split; [done|]. intros i. apply slot_recomposeRoute.
Qed.

Lemma Use_effect_witness :
  static two_method_router !! "api"
  = Some {| handlers := [Some (mkRouteHandler (reply "get-1"));
                         Some (mkRouteHandler (reply "post-1"));
                         None; None; None; None];
            isParam := false; isWild := false |}
  ∧ ∃ rt', routes_of Static (Use [mark "A"] two_method_router) !! "api" = Some rt'
           ∧ slot rt' mPut = None
           ∧ slot rt' mGet
             = Some (mkRouteHandler
                       (composeHandler (reply "get-1")
                          (globalMWs two_method_router ++ [mark "A"]))).
Proof.
  assert (H : routes_of Static two_method_router !! "api"
              = Some {| handlers := [Some (mkRouteHandler (reply "get-1"));
                                     Some (mkRouteHandler (reply "post-1"));
                                     None; None; None; None];
                        isParam := false; isWild := false |})
    by (vm_compute; reflexivity).
  split; [exact H|].
  destruct (proj1 (proj2 (proj2 (Use_effect [mark "A"] two_method_router)))
              Static "api" _ H) as (rt' & E & _ & _ & Hs).
  exists rt'. split; [exact E|]. split; [exact (Hs mPut)|exact (Hs mGet)].
Defined.

(** ** Short-circuiting middlewares *)

(** X11. A middleware that, for a request, answers without calling the
    handler it wraps cuts the chain there: behind marking middlewares, the
    composed handler writes their marks and the answer of that middleware;
    the middlewares after it and the terminal handler play no part. *)
Theorem composeHandler_short_circuit (fn : Handler) (tags : list string)
    (mw : Middleware) (inner : list Middleware) (answer : Handler)
    (req : Request) (w : ResponseWriter) :
  (∀ next w', mw next req w' = answer req w') →
  composeHandler fn ((mark <$> tags) ++ mw :: inner) req w
  = answer req (foldl (fun w tag => Write tag w) w tags).
Proof.
  intros Hmw.
  rewrite composeHandler_app, composeHandler_marks, composeHandler_cons.
  apply Hmw.
Qed.

Lemma composeHandler_short_circuit_witness :
  (∀ next w', Auth next (request "GET" "/secure") w'
              = Error "Unauthorized" StatusUnauthorized w')
  ∧ composeHandler (reply "Secure") ((mark <$> ["A"; "B"]) ++ Auth :: [mark "C"])
      (request "GET" "/secure") NewRecorder
    = Error "Unauthorized" StatusUnauthorized
        (foldl (fun w tag => Write tag w) NewRecorder ["A"; "B"]).
Proof.
  assert (H : ∀ next w', Auth next (request "GET" "/secure") w'
                         = Error "Unauthorized" StatusUnauthorized w')
    by (intros next w'; reflexivity).
  split; [exact H|].
  exact (composeHandler_short_circuit (reply "Secure") ["A"; "B"] Auth [mark "C"]
           (fun _ => Error "Unauthorized" StatusUnauthorized)
           (request "GET" "/secure") NewRecorder H).
Defined.



(** The scenario of the package's documentation: without the header the
    status is 401 and the handler's text is absent; with it the handler
    answers. *)
Example Auth_replies :
  (fun r => let w := ServeHTTP r (request "GET" "/secure") NewRecorder in
            (Code w, Body w))
    <$> GET "/secure" (reply "Secure") [Auth] New
  = Some (Some StatusUnauthorized, "Unauthorized" +:+ newline)
  ∧ (fun r => let w := ServeHTTP r (authorized_request "GET" "/secure" "Bearer token")
                         NewRecorder in
              (Code w, Body w))
      <$> GET "/secure" (reply "Secure") [Auth] New
    = Some (Some StatusOK, "Secure").
Proof. split; vm_compute; reflexivity. Qed.

(** ** [matchParam] *)

Lemma Split_cons (c sep : ascii) (s : string) :
  Split (String c s) sep
  = if Ascii.eqb c sep then "" :: Split s sep
    else match Split s sep with
         | [] => [String c ""]
         | piece :: pieces => String c piece :: pieces
         end.
Proof. reflexivity. Qed.

Lemma Split_not_nil (s : string) (sep : ascii) : Split s sep ≠ [].
Proof.
  destruct s as [|c s]; [done|]. rewrite Split_cons.
  destruct (Ascii.eqb c sep); [done|]. by destruct (Split s sep).
Qed.

Lemma Join_cons_cons (a b : string) (l : list string) (sep : string) :
  Join (a :: b :: l) sep = a +:+ sep +:+ Join (b :: l) sep.
Proof. reflexivity. Qed.

(** Joining the pieces of a string with the separator gives the string. *)
Lemma Join_Split (s : string) (sep : ascii) :
  Join (Split s sep) (String sep "") = s.
Proof.
  induction s as [|c s IH]; [done|]. rewrite Split_cons.
  pose proof (Split_not_nil s sep) as Hne.
  destruct (Split s sep) as [|piece pieces] eqn:E; [done|].
  destruct (Ascii.eqb_spec c sep) as [->|_].
  - rewrite Join_cons_cons, IH. reflexivity.
  - destruct pieces as [|piece' pieces].
    + cbn in IH |- *. by rewrite IH.
    + rewrite Join_cons_cons in IH |- *. rewrite append_cons. by rewrite IH.
Qed.

Lemma matchParts_true (pParts rParts : list string) :
  length pParts = length rParts →
  matchParts pParts rParts = Some true
  ↔ Forall2 (fun p r => p = r ∨ is_param_part p = true) pParts rParts.
Proof.
  revert rParts. induction pParts as [|p ps IH]; intros [|r rs] Hlen;
    try discriminate Hlen.
  - split; [constructor|done].
  - injection Hlen as Hlen. cbn [matchParts].
    destruct (String.eqb_spec p r) as [->|Hne].
    + rewrite (IH rs Hlen). split.
      * intros H. constructor; [by left|done].
      * by intros [_ H]%Forall2_cons_1.
    + destruct p as [|c p'].
      * split; [done|]. intros [[?|?] _]%Forall2_cons_1; done.
      * cbn [is_param_part]. destruct (Ascii.eqb c ":") eqn:Ec.
        -- rewrite (IH rs Hlen). split.
           ++ intros H. constructor; [by right|done].
           ++ by intros [_ H]%Forall2_cons_1.
        -- split; [done|].
           intros [[?|H] _]%Forall2_cons_1; [done|cbn in H; congruence].
Qed.


(** X13. [matchParam] answers the empty string or the path it was given,
    never anything else (the value of the parameter is not extracted). *)
Theorem matchParam_result (path pattern out : string) :
  matchParam path pattern = Some out → out = "" ∨ out = path.
Proof.
  unfold matchParam.
  destruct (String.length path <? String.length pattern)%nat;
    [intros [= <-]; by left|].
  destruct (String.eqb pattern path); [intros [= <-]; by left|].
  destruct (negb _); [intros [= <-]; by left|].
  destruct (matchParts _ _) as [[|]|]; [|intros [= <-]; by left|done].
  intros [= <-]. right. apply Join_Split.
Qed.

Lemma matchParam_result_witness :
  matchParam "users/123" "users/:id" = Some "users/123"
  ∧ ("users/123" = "" ∨ "users/123" = "users/123").
Proof.
  assert (H : matchParam "users/123" "users/:id" = Some "users/123")
    by (vm_compute; reflexivity).
  split; [exact H|].
  exact (matchParam_result "users/123" "users/:id" "users/123" H).
Defined.

(** X14. [matchParam] answers the path, for a path that is not empty,
    exactly when the path is at least as long as the pattern, differs from
    it, and has as many parts between separators as the pattern, each part
    of the pattern being equal to the part of the path at its place or
    starting with ":".  So a path shorter than the pattern does not match
    even when its parts do, and a pattern does not match itself. *)
Theorem matchParam_matches (path pattern : string) :
  path ≠ "" →
  matchParam path pattern = Some path
  ↔ String.length pattern ≤ String.length path
    ∧ pattern ≠ path
    ∧ Forall2 (fun p r => p = r ∨ is_param_part p = true)
        (Split pattern "/") (Split path "/").
Proof.
  intros Hpath. unfold matchParam.
  destruct (Nat.ltb_spec (String.length path) (String.length pattern)) as [Hlt|Hge].
  { split; [intros [= E]; by rewrite <- E in Hpath|]. intros (H & _). lia. }
  destruct (String.eqb_spec pattern path) as [->|Hne].
  { split; [intros [= E]; by rewrite <- E in Hpath|]. by intros (_ & H & _). }
  destruct (Nat.eqb_spec (length (Split pattern "/")) (length (Split path "/")))
    as [Hlen|Hlen]; cbn [negb].
  - pose proof (matchParts_true _ _ Hlen) as Hiff.
    destruct (matchParts (Split pattern "/") (Split path "/")) as [[|]|].
    + rewrite Join_Split. split; [|done]. intros _.
      split; [done|]. split; [done|]. by apply Hiff.
    + split; [intros [= E]; by rewrite <- E in Hpath|].
      intros (_ & _ & H). by apply Hiff in H.
    + split; [done|]. intros (_ & _ & H). by apply Hiff in H.
  - split; [intros [= E]; by rewrite <- E in Hpath|].
    intros (_ & _ & H). by apply Forall2_length in H.
Qed.

Lemma matchParam_matches_witness :
  "users/123" ≠ ""
  ∧ (matchParam "users/123" "users/:id" = Some "users/123"
     ↔ String.length "users/:id" ≤ String.length "users/123"
       ∧ "users/:id" ≠ "users/123"
       ∧ Forall2 (fun p r => p = r ∨ is_param_part p = true)
           (Split "users/:id" "/") (Split "users/123" "/")).
Proof.
  assert (H : "users/123" ≠ "") by discriminate.
  split; [exact H|].
  exact (matchParam_matches "users/123" "users/:id" H).
Defined.



(** A path shorter than the pattern, the pattern itself, and a pattern with
    an empty part. *)
Example matchParam_edges :
  matchParam "users/7" "users/:id" = Some ""
  ∧ matchParam "users/:id" "users/:id" = Some ""
  ∧ matchParam "users/123/x" "users/:id" = Some ""
  ∧ matchParam "users/abc/x" "users//x" = None.
Proof. repeat split; vm_compute; reflexivity. Qed.

(** ** Groups *)

(** [addRoute] reads its path through [strings.Trim] only. *)
Lemma addRoute_path_ext (i : nat) (path1 path2 : string) (fn : Handler)
    (mws : list Middleware) (r : Router) :
  Trim path1 "/" = Trim path2 "/" →
  addRoute i path1 fn mws r = addRoute i path2 fn mws r.
Proof. intros H. unfold addRoute. by rewrite H. Qed.

Lemma Trim_group_path (prefix path : string) :
  Trim (Trim prefix "/" +:+ "/" +:+ Trim path "/") "/" = joined_key prefix path.
Proof.
  unfold joined_key.
  destruct (String.eqb_spec (Trim prefix "/") "") as [->|Hp].
  - change ("" +:+ "/" +:+ Trim path "/") with (String "/" (Trim path "/")).
    unfold Trim at 1. change (TrimLeft (String "/" ?s) "/") with (TrimLeft s "/").
    fold (Trim (Trim path "/") "/"). apply Trim_idem.
  - destruct (String.eqb_spec (Trim path "/") "") as [->|Hq].
    + unfold Trim at 1.
      rewrite TrimLeft_app by (done || apply Trim_TrimLeft_fixed).
      change ("/" +:+ "") with "/".
      rewrite TrimRight_app_cut by done. apply Trim_TrimRight_fixed.
    + apply Trim_sandwich; try done.
      * apply Trim_TrimLeft_fixed.
      * apply Trim_TrimRight_fixed.
Qed.

(** X16. A route registered on a group made by [Router.Group] is the route
    the router registers, with the group's middlewares before the given
    ones, under the trimmed prefix and the trimmed path joined by one "/";
    with an empty prefix the key is the path's, with an empty path it is the
    prefix itself.  That key is trimmed. *)
Theorem group_route_key (prefix path : string) (gmws mws : list Middleware)
    (i : nat) (fn : Handler) (r : Router) :
  Group_addRoute (Router_Group prefix gmws) i path fn mws r
  = addRoute i (joined_key prefix path) fn (gmws ++ mws) r
  ∧ Trim (joined_key prefix path) "/" = joined_key prefix path
  ∧ classify (Group_prefix (Router_Group prefix gmws) +:+ "/" +:+ Trim path "/")
    = classify (joined_key prefix path).
Proof.
  assert (Ht : Trim (joined_key prefix path) "/" = joined_key prefix path).
  { rewrite <- Trim_group_path. apply Trim_idem. }
  split; [|split; [done|]].
  - unfold Group_addRoute, Router_Group. cbn [Group_prefix Group_mws].
    apply addRoute_path_ext. by rewrite Trim_group_path, Ht.
  - unfold classify, Router_Group. cbn [Group_prefix].
    by rewrite Trim_group_path, Ht.
Qed.

Example group_keys :
  joined_key "/api/v1/" "/users" = "api/v1/users"
  ∧ joined_key "/" "/users/" = "users"
  ∧ joined_key "/api/v1" "/" = "api/v1".
Proof. repeat split; vm_compute; reflexivity. Qed.



(** A nested group with an empty prefix: the route is stored under
    "api//users", so the request for "/api/users" is not found and the
    request for "/api//users" is answered. *)
Example nested_group_empty_prefix :
  let g := Group_Group (Router_Group "/api" []) "/" [] in
  (fun r => dom (static r)) <$> Group_GET g "/users" (reply "List users") [] New
  = Some {[ "api//users" ]}
  ∧ (fun r => Body (ServeHTTP r (request "GET" "/api/users") NewRecorder))
      <$> Group_GET g "/users" (reply "List users") [] New
    = Some ("404 page not found" +:+ newline)
  ∧ (fun r => Body (ServeHTTP r (request "GET" "/api//users") NewRecorder))
      <$> Group_GET g "/users" (reply "List users") [] New
    = Some "List users".
Proof. repeat split; vm_compute; reflexivity. Qed.

(** ** What a registration leaves alone *)

Lemma std_method_name (method : string) :
  method ∈ std_methods → ∃ j, j ∈ method_range ∧ method = method_name j.
Proof.
  unfold std_methods. rewrite !elem_of_cons, elem_of_nil.
  intros [->|[->|[->|[->|[->|[]]]]]];
    [exists mGet|exists mPost|exists mPut|exists mDelete|exists mPatch];
    (split; [apply method_range_lt; cbv; lia|reflexivity]).
Qed.

(** X18. Registering a route changes the reply to no request but those with
    the method and the normalized path registered: a registration of a
    parameterized or wildcard path changes no reply at all, and a
    registration of a static path changes none for another path or another
    method. *)
Theorem addRoute_leaves_other_requests (r r' : Router) (i : nat) (path : string)
    (fn : Handler) (mws : list Middleware) (req : Request) (w : ResponseWriter) :
  addRoute i path fn mws r = Some r' →
  (classify path).1 ≠ Static
  ∨ normalized req ≠ (classify path).2
  ∨ Method req ≠ method_name i →
  ServeHTTP r' req w = ServeHTTP r req w.
Proof.
  intros E Hother. destruct (classify path) as [part key] eqn:Ec.
  cbn [fst snd] in Hother.
  pose proof (addRoute_inv_Some _ _ _ _ _ _ part key Ec E) as Hlt.
  rewrite (addRoute_Some _ _ _ _ _ part key Ec) in E by done. injection E as <-.
  rewrite !ServeHTTP_dispatch. unfold catchAll_match, static_match.
  rewrite catchAll_compileStatic, catchAll_set_routes.
  change (static (compileStatic ?x)) with (routes_of Static (compileStatic x)).
  rewrite routes_of_compileStatic, routes_of_set_routes.
  case_decide as Ep; [subst part|done].
  rewrite lookup_insert. case_decide as Ek; [|done].
  destruct Hother as [?|[?|Hm]]; [done|by subst key|].
  cbn [routes_of] in *. rewrite <- Ek.
  assert (Hsame : getHandler
            {| handlers := <[i := Some (mkRouteHandler
                                 (composeHandler fn (globalMWs r ++ mws)))]>
                             (handlers (default zero_route (static r !! key)));
               isParam := Contains (Trim path "/") ":";
               isWild := HasSuffix (Trim path "/") "*" |} (Method req)
          = static r !! key ≫= (fun rt => getHandler rt (Method req))).
  { destruct (decide (Method req ∈ std_methods)) as [Hstd|Hstd].
    - destruct (std_method_name _ Hstd) as (j & Hj & Hmj).
      assert (j ≠ i) by (intros ->; by apply Hm).
      rewrite Hmj, getHandler_method_name by done.
      unfold slot at 1. cbn [handlers]. rewrite list_lookup_insert_ne by done.
      destruct (static r !! key) as [rt0|]; cbn.
      + by rewrite getHandler_method_name.
      + by do 6 (destruct j as [|j]; [done|]).
    - rewrite getHandler_other by done.
      destruct (static r !! key) as [rt0|]; cbn; [|done].
      by rewrite getHandler_other. }
  cbn. by rewrite Hsame.
Qed.

Lemma addRoute_leaves_other_requests_witness :
  let r' := default New (addRoute mGet "/users/:id" (reply "User: ") [] demo_router) in
  addRoute mGet "/users/:id" (reply "User: ") [] demo_router = Some r'
  ∧ ServeHTTP r' (request "GET" "/users/42") NewRecorder
    = ServeHTTP demo_router (request "GET" "/users/42") NewRecorder.
Proof.
  intros r'.
  assert (H1 : addRoute mGet "/users/:id" (reply "User: ") [] demo_router = Some r')
    by (vm_compute; reflexivity).
  assert (H2 : (classify "/users/:id").1 ≠ Static) by (vm_compute; discriminate).
  split; [exact H1|].
  exact (addRoute_leaves_other_requests demo_router r' mGet "/users/:id"
           (reply "User: ") [] (request "GET" "/users/42") NewRecorder H1
           (or_introl H2)).
Defined.

(** ** The compiled closure and the fallback *)

(** X19. The compiled closure and the lookup that [ServeHTTP] does without
    it give the same reply to every request: whether [staticCode] is set
    makes no difference to what a router answers. *)
Theorem compiled_equals_fallback (r : Router) (code : option staticFn)
    (req : Request) (w : ResponseWriter) :
  ServeHTTP (set_staticCode code r) req w = ServeHTTP r req w.
Proof. by rewrite !ServeHTTP_dispatch. Qed.

(** ** [Use] before any registration *)

(** X20. On a router without routes and without a catch-all route, two
    [Use] calls in a row are one [Use] call with the two lists appended. *)
Theorem Use_Use_empty (mws1 mws2 : list Middleware) (r : Router) :
  static r = ∅ → params r = ∅ → wildcards r = ∅ → catchAll r = None →
  Use mws2 (Use mws1 r) = Use (mws1 ++ mws2) r.
Proof.
  intros Hs Hp Hw Hc.
  assert (E : ∀ mws, Use mws r
     = {| static := ∅; params := ∅; wildcards := ∅; catchAll := None;
          globalMWs := globalMWs r ++ mws; staticCode := None |}).
  { intros mws. unfold Use, recomposeHandlers. cbn [static params wildcards
      catchAll globalMWs staticCode]. rewrite Hs, Hp, Hw, Hc, !fmap_empty.
    unfold compileStatic. cbn [static]. by rewrite decide_True by apply map_size_empty. }
  rewrite !E. unfold Use, recomposeHandlers.
  cbn [static params wildcards catchAll globalMWs staticCode].
  rewrite !fmap_empty. unfold compileStatic. cbn [static].
  rewrite decide_True by apply map_size_empty.
  unfold set_staticCode. cbn. by rewrite app_assoc.
Qed.

Lemma Use_Use_empty_witness :
  (static New = ∅ ∧ params New = ∅ ∧ wildcards New = ∅ ∧ catchAll New = None)
  ∧ Use [mark "B"] (Use [mark "A"] New) = Use ([mark "A"] ++ [mark "B"]) New.
Proof.
  assert (H1 : static New = ∅) by (vm_compute; reflexivity).
  assert (H2 : params New = ∅) by (vm_compute; reflexivity).
  assert (H3 : wildcards New = ∅) by (vm_compute; reflexivity).
  assert (H4 : catchAll New = None) by (vm_compute; reflexivity).
  split; [exact (conj H1 (conj H2 (conj H3 H4)))|].
  exact (Use_Use_empty [mark "A"] [mark "B"] New H1 H2 H3 H4).
Defined.
